(** * Permission resolution engine of the OAuth authorization service

    A shallow embedding of
      - [src/utils/pathMapper.ts] (identifier normalizer, pattern generator,
        specificity scorer), together with the second copy of the pattern
        generator found in [unnamed/part_000];
      - [PermissionRepository.findPermissionsWithWildcards];
      - [PermissionService.checkPermission] / [resolvePermissions];
      - [AuthorizationService.authorize].

    JavaScript strings are modelled by [string], arrays by [list], the
    [number]s that occur in a score by integers extended with [-Infinity],
    and exceptions by an explicit [result] type. *)

From Stdlib Require Import String Ascii List ZArith Lia Bool Arith Permutation.
Import ListNotations.
Open Scope string_scope.

(** ** The fragment of the JavaScript runtime used by the sources *)

Module Js.

(** A computation that either returns or throws [new Error(message)]. *)
Inductive result (A : Type) : Type :=
| Ok (a : A)
| Throw (message : string).
Arguments Ok {A} a.
Arguments Throw {A} message.

Definition bind {A B} (r : result A) (k : A -> result B) : result B :=
  match r with
  | Ok a => k a
  | Throw m => Throw m
  end.

(** [try { body } catch (error) { handler }] *)
Definition try_catch {A} (body : result A) (handler : string -> A) : A :=
  match body with
  | Ok a => a
  | Throw m => handler m
  end.

(** [s.split(sep)] for a one-character separator: never the empty array. *)
Fixpoint split (sep : ascii) (s : string) : list string :=
  match s with
  | EmptyString => [EmptyString]
  | String c r =>
      if Ascii.eqb c sep then EmptyString :: split sep r
      else match split sep r with
           | h :: t => String c h :: t
           | [] => [String c EmptyString]
           end
  end.

(** [arr.join(sep)] *)
Definition join (sep : string) (arr : list string) : string :=
  String.concat sep arr.

(** [(s.match(/c/g) || []).length]: the occurrences of one character. *)
Fixpoint count_char (c : ascii) (s : string) : nat :=
  match s with
  | EmptyString => 0
  | String a r => (if Ascii.eqb a c then 1 else 0) + count_char c r
  end.

(** [s.includes(sub)] *)
Fixpoint includes (s sub : string) : bool :=
  String.prefix sub s
  || match s with
     | EmptyString => false
     | String _ r => includes r sub
     end.

(** [s.replace(/^c+/, '')]: the match, if any, starts at position 0 and
    takes every leading [c]. *)
Fixpoint replace_leading (c : ascii) (s : string) : string :=
  match s with
  | EmptyString => EmptyString
  | String a r => if Ascii.eqb a c then replace_leading c r else s
  end.

(** [c+$] matches at the current position when what is left is a
    non-empty run of [c] up to the end of the input. *)
Fixpoint only_char (c : ascii) (s : string) : bool :=
  match s with
  | EmptyString => true
  | String a r => Ascii.eqb a c && only_char c r
  end.

(** [s.replace(/c+$/, '')]: the leftmost position where [c+$] matches is
    cut off. *)
Fixpoint replace_trailing (c : ascii) (s : string) : string :=
  match s with
  | EmptyString => EmptyString
  | String a r =>
      if only_char c s then EmptyString
      else String a (replace_trailing c r)
  end.

(** [arr.slice(start, end)], negative indices counting from the end. *)
Definition slice {A} (arr : list A) (start end_ : Z) : list A :=
  let len := Z.of_nat (List.length arr) in
  let k := if (start <? 0)%Z then Z.max (len + start) 0 else Z.min start len in
  let f := if (end_ <? 0)%Z then Z.max (len + end_) 0 else Z.min end_ len in
  firstn (Z.to_nat (f - k)) (skipn (Z.to_nat k) arr).

(** [arr.map((x, idx) => f x idx)] *)
Fixpoint mapi_from {A B} (k : nat) (f : A -> nat -> B) (arr : list A) : list B :=
  match arr with
  | [] => []
  | x :: r => f x k :: mapi_from (S k) f r
  end.

Definition mapi {A B} (f : A -> nat -> B) (arr : list A) : list B :=
  mapi_from 0 f arr.

(** [arr.push(x)] *)
Definition push {A} (arr : list A) (x : A) : list A := (arr ++ [x])%list.

(** A [Set<string>] keeps its elements in insertion order. *)
Definition has (set : list string) (x : string) : bool :=
  existsb (String.eqb x) set.

Definition add (set : list string) (x : string) : list string :=
  if has set x then set else push set x.

(** [new Set(arr)]: the elements of [arr] added one after the other. *)
Definition new_Set (arr : list string) : list string :=
  fold_left add arr [].

(** The values of [i] taken by [for (let i = lo; i < hi; i++)]. *)
Definition upto (lo hi : nat) : list nat := seq lo (hi - lo).

(** The values of [i] taken by [for (let i = hi; i > lo; i--)]. *)
Definition downto (hi lo : nat) : list nat := rev (seq (S lo) (hi - lo)).

(** A [number] as it occurs in a specificity score: an integer or
    [-Infinity].  ([-0], which [-wildcardCount] yields for zero wildcards,
    is [===] to [0] and is not told apart.) *)
Inductive number : Type :=
| NegInfinity
| Num (z : Z).

(** [x === y] *)
Definition strict_eq (x y : number) : bool :=
  match x, y with
  | NegInfinity, NegInfinity => true
  | Num a, Num b => (a =? b)%Z
  | _, _ => false
  end.

(** [x > y] *)
Definition gt (x y : number) : bool :=
  match x, y with
  | Num a, Num b => (b <? a)%Z
  | Num _, NegInfinity => true
  | NegInfinity, _ => false
  end.

End Js.

Import Js.

(** ** Types of the service ([types/index.ts]) *)

Inductive PermissionAction : Type := read | write | delete.
Inductive PermissionEffect : Type := allow | deny.
Inductive AuthorizationDecision : Type := ALLOW | DENY.

(** The string a template literal interpolates for an action. *)
Definition action_text (a : PermissionAction) : string :=
  match a with
  | read => "read"
  | write => "write"
  | delete => "delete"
  end.

Definition effect_eqb (e1 e2 : PermissionEffect) : bool :=
  match e1, e2 with
  | allow, allow | deny, deny => true
  | _, _ => false
  end.

Definition action_eqb (a1 a2 : PermissionAction) : bool :=
  match a1, a2 with
  | read, read | write, write | delete, delete => true
  | _, _ => false
  end.

Definition SpecificityScore : Type := (number * number * number)%type.

(** ** [src/utils/pathMapper.ts] *)

Module PathMapper.

Section Normalizer.

(** [String.prototype.toUpperCase] is a built-in of the runtime; the
    normalizer is verified for any such function. *)
Variable toUpperCase : string -> string.

Definition mapHttpMethodToAction (method : string) : result PermissionAction :=
  let m := toUpperCase method in
  if m =? "GET" then Ok read
  else if (m =? "POST") || (m =? "PUT") || (m =? "PATCH") then Ok write
  else if m =? "DELETE" then Ok delete
  else Throw ("Unsupported HTTP method: " ++ method).

End Normalizer.

Definition mapPathToResource (path : string) : string :=
  let cleanPath := hd "" (split "?" (replace_leading "/" path)) in
  let cleanPath := replace_trailing "/" cleanPath in
  if cleanPath =? "" then "*" else cleanPath.

Definition generateResourcePatterns (resource : string) : list string :=
  let patterns : list string := [] in
  let patterns := add patterns resource in
  let segments := split "/" resource in
  let n := List.length segments in
  let patterns :=
    fold_left
      (fun patterns i =>
         let parentPath := join "/" (slice segments 0 (Z.of_nat i)) in
         add patterns (parentPath ++ "/*"))
      (downto (n - 1) 0) patterns in
  let patterns :=
    if (3 <=? n)%nat then
      let firstSegment := nth 0 segments "" in
      let lastSegment := nth (n - 1) segments "" in
      let patterns := add patterns (firstSegment ++ "/*/" ++ lastSegment) in
      if (3 <? n)%nat then
        fold_left
          (fun patterns i =>
             let pattern :=
               join "/" (mapi (fun seg idx => if (idx =? i)%nat then "*" else seg) segments) in
             if negb (has patterns pattern) then add patterns pattern else patterns)
          (upto 1 (n - 1)) patterns
      else patterns
    else patterns in
  let patterns :=
    if (4 <=? n)%nat then
      fold_left
        (fun patterns i =>
           let pattern :=
             join "/" (slice segments 0 (Z.of_nat i)
                         ++ ["*"] ++ slice segments (Z.of_nat i + 1) (-1) ++ ["*"])%list in
           if negb (has patterns pattern) then add patterns pattern else patterns)
        (upto 1 (n - 2)) patterns
    else patterns in
  add patterns "*".

Definition calculateSpecificityScore (resource matchedResource : string)
  : SpecificityScore :=
  if matchedResource =? "*" then (Num 0, Num 0, NegInfinity)
  else
    let segments := split "/" matchedResource in
    let wildcardCount := Z.of_nat (count_char "*" matchedResource) in
    let nonWildcardSegments := (Z.of_nat (List.length segments) - wildcardCount)%Z in
    (Num (if resource =? matchedResource then 1 else 0),
     Num nonWildcardSegments,
     Num (- wildcardCount)).

End PathMapper.

(** ** The older copy of the pattern generator ([unnamed/part_000]) *)

Module Part000.

Definition generateResourcePatterns (resource : string) : list string :=
  let patterns : list string := [] in
  let segments := split "/" resource in
  let n := List.length segments in
  let patterns := push patterns resource in
  let patterns :=
    fold_left
      (fun patterns i =>
         let parentPath := join "/" (slice segments 0 (Z.of_nat i)) in
         push patterns (parentPath ++ "/*"))
      (downto (n - 1) 0) patterns in
  let patterns :=
    if (3 <=? n)%nat then
      fold_left
        (fun patterns i =>
           let pattern :=
             join "/" (mapi (fun seg idx => if (idx =? i)%nat then "*" else seg) segments) in
           push patterns pattern)
        (upto 1 (n - 1)) patterns
    else patterns in
  let patterns :=
    if (4 <=? n)%nat then
      fold_left
        (fun patterns i =>
           fold_left
             (fun patterns j =>
                let pattern :=
                  join "/" (mapi (fun seg idx =>
                                    if ((idx =? i) || (idx =? j))%nat then "*" else seg)
                              segments) in
                push patterns pattern)
             (upto (i + 2) n) patterns)
        (upto 1 (n - 2)) patterns
    else patterns in
  let patterns := push patterns "*" in
  new_Set patterns.

End Part000.

(** ** Records exchanged between the layers ([types/index.ts]) *)

(** A row of table [user_permissions]. *)
Record UserPermission : Type := {
  id : Z;
  user_id : string;
  up_action : PermissionAction;
  up_resource : string;
  up_effect : PermissionEffect
}.

(** [MatchedPermission] without the optional score: a row as the query
    selects it, and an entry of [matched_permissions] in a response. *)
Record MatchedPermission : Type := {
  mp_action : PermissionAction;
  mp_resource : string;
  mp_effect : PermissionEffect
}.

Record MatchedPermissionWithScore : Type := {
  action : PermissionAction;
  resource : string;
  effect : PermissionEffect;
  score : SpecificityScore
}.

Record PermissionCheckResult : Type := {
  allowed : bool;
  matchedPermissions : list MatchedPermissionWithScore;
  reason : string
}.

Record UserInfo : Type := { nickname : option string }.

Record ValidationResult : Type := {
  valid : bool;
  payload : option unit;
  userInfo : option UserInfo;
  error : option string
}.

Record AuthorizeRequest : Type := {
  access_token : string;
  method : string;
  path : string
}.

Record AuthorizeResponse : Type := {
  decision : AuthorizationDecision;
  resp_user_id : string;
  resp_reason : string;
  matched_permissions : list MatchedPermission
}.

(** The prepared statement of the repository, run with
    [stmt.all(userId, action, ...patterns)]: it returns rows or throws. *)
Definition Store : Type :=
  string -> PermissionAction -> list string -> result (list MatchedPermission).

(** ** [PermissionRepository] *)

Module PermissionRepository.

(** The sign of the number a comparator returns. *)
Inductive sign : Type := Negative | Zero | Positive.

(** The sign of [x - y], for [x !== y]. *)
Definition minus_sign (x y : number) : sign :=
  if gt x y then Positive else if strict_eq x y then Zero else Negative.

Definition components (s : SpecificityScore) : list number :=
  let '(s0, s1, s2) := s in [s0; s1; s2].

(** [for (let i = 0; i < a.score.length; i++)
       if (a.score[i] !== b.score[i]) return b.score[i] - a.score[i];
     return 0] *)
Fixpoint by_score (a b : list number) : sign :=
  match a, b with
  | x :: a', y :: b' =>
      if negb (strict_eq x y) then minus_sign y x else by_score a' b'
  | _, _ => Zero
  end.

(** The comparator handed to [matchedPermissions.sort]. *)
Definition compareFn (a b : MatchedPermissionWithScore) : sign :=
  if negb (effect_eqb (effect a) (effect b)) then
    if effect_eqb (effect a) deny then Negative else Positive
  else by_score (components (score a)) (components (score b)).

(** [Array.prototype.sort] is stable: an element is placed in front of the
    first element that the comparator does not put before it. *)
Fixpoint insert {A} (cmp : A -> A -> sign) (x : A) (sorted : list A) : list A :=
  match sorted with
  | [] => [x]
  | y :: r =>
      match cmp x y with
      | Positive => y :: insert cmp x r
      | _ => x :: sorted
      end
  end.

Definition sort {A} (cmp : A -> A -> sign) (arr : list A) : list A :=
  fold_right (insert cmp) [] arr.

Definition with_score (res : string) (perm : MatchedPermission)
  : MatchedPermissionWithScore :=
  {| action := mp_action perm;
     resource := mp_resource perm;
     effect := mp_effect perm;
     score := PathMapper.calculateSpecificityScore res (mp_resource perm) |}.

Definition findPermissionsWithWildcards
    (db : Store) (userId : string) (act : PermissionAction) (res : string)
  : result (list MatchedPermissionWithScore) :=
  let patterns := PathMapper.generateResourcePatterns res in
  bind (db userId act patterns) (fun results =>
    let matchedPermissions := map (with_score res) results in
    Ok (sort compareFn matchedPermissions)).

(** *** The query on a table

    [SELECT action, resource, effect FROM user_permissions
     WHERE user_id = ? AND action = ? AND resource IN (...)
     ORDER BY CASE effect WHEN 'deny' THEN 0 ELSE 1 END, LENGTH(resource) DESC].
    The order of rows with equal keys is the engine's choice; here it is
    the order of the table. *)

Definition where_clause (userId : string) (act : PermissionAction)
    (patterns : list string) (row : UserPermission) : bool :=
  (user_id row =? userId) && action_eqb (up_action row) act
  && has patterns (up_resource row).

Definition select_columns (row : UserPermission) : MatchedPermission :=
  {| mp_action := up_action row;
     mp_resource := up_resource row;
     mp_effect := up_effect row |}.

Definition effect_rank (e : PermissionEffect) : nat :=
  match e with deny => 0 | allow => 1 end.

Definition order_by (a b : MatchedPermission) : sign :=
  match Nat.compare (effect_rank (mp_effect a)) (effect_rank (mp_effect b)) with
  | Lt => Negative
  | Gt => Positive
  | Eq =>
      match Nat.compare (String.length (mp_resource b)) (String.length (mp_resource a)) with
      | Lt => Negative
      | Gt => Positive
      | Eq => Zero
      end
  end.

Definition table_store (table : list UserPermission) : Store :=
  fun userId act patterns =>
    Ok (sort order_by (map select_columns (filter (where_clause userId act patterns) table))).

End PermissionRepository.

(** ** [PermissionService] *)

Module PermissionService.

Definition areScoresEqual (score1 score2 : SpecificityScore) : bool :=
  let '(a0, a1, a2) := score1 in
  let '(b0, b1, b2) := score2 in
  strict_eq a0 b0 && strict_eq a1 b1 && strict_eq a2 b2.

Definition generateAllowReason
    (permission : MatchedPermissionWithScore) (act : PermissionAction) (res : string)
  : string :=
  if resource permission =? res then
    "User has " ++ action_text act ++ " permission for " ++ res
  else if resource permission =? "*" then
    "User has global " ++ action_text act ++ " permission"
  else if includes (resource permission) "*" then
    "User has " ++ action_text act ++ " permission matching pattern " ++ resource permission
  else
    "User has " ++ action_text act ++ " permission for " ++ resource permission.

Definition generateDenyReason
    (permission : MatchedPermissionWithScore) (act : PermissionAction) (res : string)
  : string :=
  if resource permission =? res then
    "User is explicitly denied " ++ action_text act ++ " permission for " ++ res
  else if resource permission =? "*" then
    "User is globally denied " ++ action_text act ++ " permission"
  else if includes (resource permission) "*" then
    "User is denied " ++ action_text act ++ " permission by pattern " ++ resource permission
  else
    "User is denied " ++ action_text act ++ " permission for " ++ resource permission.

Definition is_deny (p : MatchedPermissionWithScore) : bool :=
  effect_eqb (effect p) deny.

(** The non-null assertion on the result of [find] is kept as a branch
    that throws, as reading a property of [undefined] does. *)
Definition resolvePermissions
    (permissions : list MatchedPermissionWithScore)
    (act : PermissionAction) (res : string)
  : result PermissionCheckResult :=
  match permissions with
  | [] =>
      Ok {| allowed := false;
            matchedPermissions := [];
            reason := "No permissions found for " ++ action_text act ++ " on " ++ res |}
  | topPermission :: _ =>
      let sameScorePermissions :=
        filter (fun p => areScoresEqual (score p) (score topPermission)) permissions in
      let hasDenyAtSameLevel := existsb is_deny sameScorePermissions in
      if hasDenyAtSameLevel then
        match find is_deny sameScorePermissions with
        | Some denyPermission =>
            Ok {| allowed := false;
                  matchedPermissions := [denyPermission];
                  reason := generateDenyReason denyPermission act res |}
        | None => Throw "Cannot read properties of undefined (reading 'resource')"
        end
      else
        let allowed_ := effect_eqb (effect topPermission) allow in
        Ok {| allowed := allowed_;
              matchedPermissions := [topPermission];
              reason := if allowed_
                        then generateAllowReason topPermission act res
                        else generateDenyReason topPermission act res |}
  end.

(** Logging has no effect on the result and is left out. *)
Definition checkPermission
    (db : Store) (userId : string) (act : PermissionAction) (res : string)
  : PermissionCheckResult :=
  try_catch
    (bind (PermissionRepository.findPermissionsWithWildcards db userId act res)
       (fun matched =>
          if (List.length matched =? 0)%nat then
            Ok {| allowed := false;
                  matchedPermissions := [];
                  reason := "No permissions found for " ++ action_text act ++ " on " ++ res |}
          else resolvePermissions matched act res))
    (fun _ =>
       {| allowed := false;
          matchedPermissions := [];
          reason := "Permission check failed due to system error" |}).

End PermissionService.

(** ** [AuthorizationService] *)

Module AuthorizationService.

Section Authorize.

(** The collaborators: the token service (whose [validateToken] catches
    every exception itself), the runtime's upper-casing and the store. *)
Variable validateToken : string -> ValidationResult.
Variable toUpperCase : string -> string.
Variable db : Store.

(** [s || fallback] on an optional string: [undefined] and the empty
    string are falsy. *)
Definition or_else (s : option string) (fallback : string) : string :=
  match s with
  | Some e => if e =? "" then fallback else e
  | None => fallback
  end.

Definition strip_score (p : MatchedPermissionWithScore) : MatchedPermission :=
  {| mp_action := action p; mp_resource := resource p; mp_effect := effect p |}.

Definition unknown_user (why : string) : AuthorizeResponse :=
  {| decision := DENY;
     resp_user_id := "unknown";
     resp_reason := why;
     matched_permissions := [] |}.

Definition authorize (request : AuthorizeRequest) : AuthorizeResponse :=
  try_catch
    (let tokenResult := validateToken (access_token request) in
     if negb (valid tokenResult)
        || match payload tokenResult with Some _ => false | None => true end
     then Ok (unknown_user (or_else (error tokenResult) "Invalid token"))
     else
       bind (match userInfo tokenResult with
             | Some info => Ok (nickname info)
             | None => Throw "Cannot read properties of undefined (reading 'nickname')"
             end)
         (fun userId =>
            match userId with
            | None => Ok (unknown_user "User not found")
            | Some uid =>
                if uid =? "" then Ok (unknown_user "User not found")
                else
                  bind (PathMapper.mapHttpMethodToAction toUpperCase (method request))
                    (fun act =>
                       let res := PathMapper.mapPathToResource (path request) in
                       let permissionResult :=
                         PermissionService.checkPermission db uid act res in
                       let decision_ := if allowed permissionResult then ALLOW else DENY in
                       Ok {| decision := decision_;
                             resp_user_id := uid;
                             resp_reason := reason permissionResult;
                             matched_permissions :=
                               map strip_score (matchedPermissions permissionResult) |})
            end))
    (fun _ => unknown_user "Authorization check failed due to system error").

End Authorize.

End AuthorizationService.

(** ** [TokenService] *)

Module TokenService.

Section ValidateToken.

(** The collaborators of [validateToken]: the built-in
    [token.replace(/^Bearer\s+/i, '')], [jwtVerify] of the JOSE library,
    which returns the payload or throws, and the [GET] of the user-info
    endpoint, which returns the [data] of the response ([None] when it is
    falsy) or throws. *)
Variable stripBearer : string -> string.
Variable jwtVerify : string -> result unit.
Variable getUserInfo : string -> result (option UserInfo).

Definition invalid (why : string) : ValidationResult :=
  {| valid := false; payload := None; userInfo := None; error := Some why |}.

Definition validateToken (token : string) : ValidationResult :=
  try_catch
    (let cleanToken := stripBearer token in
     let tokenParts := split "." cleanToken in
     if negb (List.length tokenParts =? 3)%nat then Ok (invalid "Invalid token format")
     else
       Ok (try_catch
             (bind (jwtVerify cleanToken) (fun payload_ =>
              bind (getUserInfo cleanToken) (fun data =>
                match data with
                | None => Ok (invalid "User ID not found in Auth0 token")
                | Some info =>
                    Ok {| valid := true; payload := Some payload_;
                          userInfo := Some info; error := None |}
                end)))
             (fun errorMessage =>
                invalid ("Auth0 token validation failed: " ++ errorMessage))))
    (fun _ => invalid "Token validation failed").

End ValidateToken.

End TokenService.

(** ** [AuthController] *)

Record HttpResponse : Type := {
  status : Z;
  body : AuthorizeResponse
}.

Module AuthController.

(** [authorize], for an authorization service that returns or throws. *)
Definition authorize
    (authorizationService : AuthorizeRequest -> result AuthorizeResponse)
    (request : AuthorizeRequest) : HttpResponse :=
  try_catch
    (bind (authorizationService request) (fun response =>
       let statusCode :=
         match decision response with ALLOW => 200%Z | DENY => 403%Z end in
       Ok {| status := statusCode; body := response |}))
    (fun _ =>
       {| status := 500;
          body := {| decision := DENY;
                     resp_user_id := "unknown";
                     resp_reason := "Internal server error";
                     matched_permissions := [] |} |}).

End AuthController.

(** ** [middleware/validator.ts] *)

Module Validator.

(** A request body as it arrives: a field is [None] when it is missing or
    not a string. *)
Record Body : Type := {
  body_access_token : option string;
  body_method : option string;
  body_path : option string
}.

(** [z.string().min(1)] *)
Definition string_min_1 (field : option string) : option string :=
  match field with
  | Some s => if (1 <=? String.length s)%nat then Some s else None
  | None => None
  end.

(** [z.enum(['GET', 'POST', 'PUT', 'PATCH', 'DELETE'])] *)
Definition method_enum (field : option string) : option string :=
  match field with
  | Some s => if has ["GET"; "POST"; "PUT"; "PATCH"; "DELETE"] s then Some s else None
  | None => None
  end.

(** [.startsWith('/')] *)
Definition starts_with_slash (field : option string) : option string :=
  match field with
  | Some s => if String.prefix "/" s then Some s else None
  | None => None
  end.

(** [authorizeRequestSchema.parseAsync(body)]: the validated request, or
    [None] for a [ZodError]. *)
Definition authorizeRequestSchema (b : Body) : option AuthorizeRequest :=
  match string_min_1 (body_access_token b),
        method_enum (body_method b),
        starts_with_slash (string_min_1 (body_path b)) with
  | Some t, Some m, Some p => Some {| access_token := t; method := m; path := p |}
  | _, _, _ => None
  end.

(** What a middleware does: hand the request on, or answer with a status. *)
Inductive outcome : Type :=
| Next (request : AuthorizeRequest)
| Respond (code : Z).

Definition validateRequest (schema : Body -> option AuthorizeRequest) (b : Body) : outcome :=
  match schema b with
  | Some validated => Next validated
  | None => Respond 400
  end.

End Validator.

(** ** [config/index.ts] *)

Module Config.

(** [process.env] *)
Definition Env : Type := string -> option string.

(** A string is truthy when it is defined and not empty. *)
Definition truthy (s : option string) : bool :=
  match s with
  | Some v => negb (v =? "")
  | None => false
  end.

(** [a || b] on optional strings. *)
Definition or_ (a b : option string) : option string :=
  if truthy a then a else b.

(** The value returned is typed [string]; [None] stands for [undefined]. *)
Definition getEnvVar (env : Env) (key : string) (defaultValue : option string)
  : result (option string) :=
  let value := env key in
  if negb (truthy value) && negb (truthy defaultValue) then
    Throw ("Missing required environment variable: " ++ key)
  else Ok (or_ value defaultValue).

Section Numbers.

(** [parseInt(value, 10)], a built-in; [None] stands for [NaN]. *)
Variable parseInt10 : string -> option Z.

Definition getEnvNumber (env : Env) (key : string) (defaultValue : Z) : option Z :=
  let value := env key in
  if truthy value
  then match value with Some v => parseInt10 v | None => None end
  else Some defaultValue.

Record AppConfig : Type := {
  port : option Z;
  nodeEnv : option string;
  logLevel : option string;
  database_path : option string;
  auth0_domain : option string;
  auth0_audience : option string;
  rateLimitWindowMs : option Z;
  rateLimitMaxRequests : option Z;
  clockTolerance : option Z
}.

(** The object literal [config], its properties evaluated in order. *)
Definition config (env : Env) : result AppConfig :=
  let port_ := getEnvNumber env "PORT" 8080 in
  bind (getEnvVar env "NODE_ENV" (Some "development")) (fun nodeEnv_ =>
  bind (getEnvVar env "LOG_LEVEL" (Some "info")) (fun logLevel_ =>
  bind (getEnvVar env "DATABASE_PATH" (Some "./data/permissions.db")) (fun path_ =>
  bind (getEnvVar env "AUTH0_DOMAIN" (Some "")) (fun domain_ =>
  bind (getEnvVar env "AUTH0_AUDIENCE" (Some "")) (fun audience_ =>
  Ok {| port := port_;
        nodeEnv := nodeEnv_;
        logLevel := logLevel_;
        database_path := path_;
        auth0_domain := domain_;
        auth0_audience := audience_;
        rateLimitWindowMs := getEnvNumber env "RATE_LIMIT_WINDOW_MS" 60000;
        rateLimitMaxRequests := getEnvNumber env "RATE_LIMIT_MAX_REQUESTS" 100;
        clockTolerance := getEnvNumber env "JWT_CLOCK_TOLERANCE" 5 |}))))).

End Numbers.

End Config.

(** ** [config/database.ts]: [initializeDatabase] *)

Module Database.





End Database.

(** ** Notions the properties are stated with *)

(** Left-to-right lexicographic comparison of two scores, higher first. *)
Definition score_gt (s t : SpecificityScore) : bool :=
  let '(a0, a1, a2) := s in
  let '(b0, b1, b2) := t in
  gt a0 b0 || (strict_eq a0 b0 && (gt a1 b1 || (strict_eq a1 b1 && gt a2 b2))).

(** [x] may stand in front of [y]: a deny before an allow, and within one
    effect the score of [x] is not below that of [y]. *)
Definition may_precede (x y : MatchedPermissionWithScore) : bool :=
  match effect x, effect y with
  | deny, allow => true
  | allow, deny => false
  | _, _ => negb (score_gt (score y) (score x))
  end.

(** The prescribed order of a candidate list: every deny record before
    every allow record, each effect group by score descending. *)
Fixpoint prescribed_order (ps : list MatchedPermissionWithScore) : bool :=
  match ps with
  | [] => true
  | x :: r => forallb (may_precede x) r && prescribed_order r
  end.

(** The records that tie with [top] on the score triple. *)
Definition tiedGroup (top : MatchedPermissionWithScore)
    (ps : list MatchedPermissionWithScore) : list MatchedPermissionWithScore :=
  filter (fun p => PermissionService.areScoresEqual (score p) (score top)) ps.

(** The results of the two terminal cases that carry no permission. *)
Definition system_error_result : PermissionCheckResult :=
  {| allowed := false;
     matchedPermissions := [];
     reason := "Permission check failed due to system error" |}.

Definition no_permissions_result (act : PermissionAction) (res : string)
  : PermissionCheckResult :=
  {| allowed := false;
     matchedPermissions := [];
     reason := "No permissions found for " ++ action_text act ++ " on " ++ res |}.

(** The denial that names [d] as the deciding record. *)
Definition denied_by (d : MatchedPermissionWithScore)
    (a : PermissionAction) (r : string) : PermissionCheckResult :=
  {| allowed := false;
     matchedPermissions := [d];
     reason := PermissionService.generateDenyReason d a r |}.

(** A deny on [wallets/*] and an allow on the exact resource
    [wallets/wallet-123], both for [write]. *)
Definition wallets_deny : MatchedPermission :=
  {| mp_action := write; mp_resource := "wallets/*"; mp_effect := deny |}.
Definition wallet_123_allow : MatchedPermission :=
  {| mp_action := write; mp_resource := "wallets/wallet-123"; mp_effect := allow |}.

Definition scored (p : MatchedPermission) : MatchedPermissionWithScore :=
  PermissionRepository.with_score "wallets/wallet-123" p.

Definition wallet_rows : list UserPermission :=
  [ {| id := 1; user_id := "u1"; up_action := write;
       up_resource := "wallets/wallet-123"; up_effect := allow |};
    {| id := 2; user_id := "u1"; up_action := write;
       up_resource := "wallets/*"; up_effect := deny |} ].

(** The segments of a pattern, and the two kinds of segment. *)
Definition segments_of (pattern : string) : list string := split "/" pattern.

Definition is_wildcard (seg : string) : bool := seg =? "*".

Definition wildcard_segments (pattern : string) : nat :=
  List.length (filter is_wildcard (segments_of pattern)).

Definition literal_segments (pattern : string) : nat :=
  List.length (filter (fun seg => negb (is_wildcard seg)) (segments_of pattern)).

(** Every segment is the wildcard token or text without a star. *)
Definition segment_shaped (pattern : string) : bool :=
  forallb (fun seg => is_wildcard seg || (count_char "*" seg =? 0)%nat)
    (segments_of pattern).

(** The second component of a score. *)
Definition specificity (s : SpecificityScore) : number := snd (fst s).

(** [pattern.split('/')[0]] *)
Definition first_segment (pattern : string) : string := hd "" (segments_of pattern).

(** The normalisation of a path as the specification words it, on the
    characters of the path: drop the leading slashes, keep what stands
    before the first question mark, drop the trailing slashes. *)
Fixpoint dropWhile {A} (f : A -> bool) (l : list A) : list A :=
  match l with
  | [] => []
  | x :: r => if f x then dropWhile f r else l
  end.

Fixpoint takeWhile {A} (f : A -> bool) (l : list A) : list A :=
  match l with
  | [] => []
  | x :: r => if f x then x :: takeWhile f r else []
  end.

Definition is_slash (c : ascii) : bool := Ascii.eqb c "/".
Definition not_question (c : ascii) : bool := negb (Ascii.eqb c "?").

Definition spec_mapResource (path : string) : string :=
  let chars := list_ascii_of_string path in
  let chars := dropWhile is_slash chars in
  let chars := takeWhile not_question chars in
  let chars := rev (dropWhile is_slash (rev chars)) in
  match chars with
  | [] => "*"
  | _ => string_of_list_ascii chars
  end.

(** A path that has nothing to strip: not empty, no question mark, no
    slash at either end. *)
Definition already_clean (path : string) : bool :=
  let chars := list_ascii_of_string path in
  match chars, rev chars with
  | c :: _, d :: _ => negb (is_slash c) && negb (is_slash d) && forallb not_question chars
  | _, _ => false
  end.

(** The shapes of patterns in [pathMapper.ts]. *)
Definition parent_pattern (R : string) (i : nat) : string :=
  join "/" (slice (split "/" R) 0 (Z.of_nat i)) ++ "/*".
Definition ends_pattern (R : string) : string :=
  nth 0 (split "/" R) "" ++ "/*/" ++ nth (List.length (split "/" R) - 1) (split "/" R) "".
Definition one_star_pattern (R : string) (i : nat) : string :=
  join "/" (mapi (fun seg idx => if (idx =? i)%nat then "*" else seg) (split "/" R)).
Definition star_and_tail_pattern (R : string) (i : nat) : string :=
  join "/" (slice (split "/" R) 0 (Z.of_nat i)
              ++ ["*"] ++ slice (split "/" R) (Z.of_nat i + 1) (-1) ++ ["*"])%list.
(** The two-position shape of [part_000]. *)
Definition two_star_pattern (R : string) (i j : nat) : string :=
  join "/" (mapi (fun seg idx => if ((idx =? i) || (idx =? j))%nat then "*" else seg) (split "/" R)).

(** The number of segments of a resource. *)
Definition segment_count (R : string) : nat := List.length (split "/" R).

(** The patterns of [pathMapper.ts], shape by shape. *)
Definition pathMapper_shape (R P : string) : Prop :=
  P = R
  \/ (exists i, 1 <= i <= segment_count R - 1 /\ P = parent_pattern R i)
  \/ (3 <= segment_count R /\ P = ends_pattern R)
  \/ (4 <= segment_count R /\ exists i, 1 <= i < segment_count R - 1 /\ P = one_star_pattern R i)
  \/ (4 <= segment_count R
      /\ exists i, 1 <= i < segment_count R - 2 /\ P = star_and_tail_pattern R i)
  \/ P = "*".

(** The patterns of [part_000], shape by shape. *)
Definition part000_shape (R P : string) : Prop :=
  P = R
  \/ (exists i, 1 <= i <= segment_count R - 1 /\ P = parent_pattern R i)
  \/ (3 <= segment_count R /\ exists i, 1 <= i < segment_count R - 1 /\ P = one_star_pattern R i)
  \/ (4 <= segment_count R
      /\ exists i j, 1 <= i < segment_count R - 2 /\ i + 2 <= j < segment_count R
                     /\ P = two_star_pattern R i j)
  \/ P = "*".

(** The patterns between the resource and ["*"], in the order in which
    [pathMapper.ts] offers them to its set. *)
Definition pathMapper_middle (R : string) : list string :=
  let n := segment_count R in
  (map (parent_pattern R) (downto (n - 1) 0)
   ++ (if (3 <=? n)%nat
       then ends_pattern R
            :: (if (3 <? n)%nat then map (one_star_pattern R) (upto 1 (n - 1)) else [])
       else [])
   ++ (if (4 <=? n)%nat then map (star_and_tail_pattern R) (upto 1 (n - 2)) else []))%list.

(** The same for [part_000], in the order in which it pushes them. *)
Definition part000_middle (R : string) : list string :=
  let n := segment_count R in
  (map (parent_pattern R) (downto (n - 1) 0)
   ++ (if (3 <=? n)%nat then map (one_star_pattern R) (upto 1 (n - 1)) else [])
   ++ (if (4 <=? n)%nat
       then flat_map (fun i => map (two_star_pattern R i) (upto (i + 2) n)) (upto 1 (n - 2))
       else []))%list.

(** The characters left of a path once slashes and query are stripped. *)
Definition stripped (cs : list ascii) : list ascii :=
  rev (dropWhile is_slash (rev (takeWhile not_question (dropWhile is_slash cs)))).

(** What a request resolves to before the permission check: a valid token
    with a payload, the non-empty nickname [uid] of its user information, and
    the action [act] of its method. *)
Definition resolved (validateToken : string -> ValidationResult)
    (toUpperCase : string -> string)
    (request : AuthorizeRequest) (uid : string) (act : PermissionAction) : Prop :=
  valid (validateToken (access_token request)) = true
  /\ payload (validateToken (access_token request)) <> None
  /\ (exists info, userInfo (validateToken (access_token request)) = Some info
                   /\ nickname info = Some uid)
  /\ uid <> ""
  /\ PathMapper.mapHttpMethodToAction toUpperCase (method request) = Ok act.

(** A store whose query throws [message]. *)
Definition failing_store (message : string) : Store :=
  fun _ _ _ => Throw message.

(** A token service that accepts every token as user [uid]. *)
Definition token_of (uid : string) : string -> ValidationResult :=
  fun _ => {| valid := true; payload := Some tt;
              userInfo := Some {| nickname := Some uid |}; error := None |}.

(** Upper-casing of ASCII text: the letters [a]-[z] are shifted, every
    other character is kept. *)
Definition ascii_upper (c : ascii) : ascii :=
  let n := nat_of_ascii c in
  if ((97 <=? n) && (n <=? 122))%nat then ascii_of_nat (n - 32) else c.

Fixpoint ascii_toUpperCase (s : string) : string :=
  match s with
  | EmptyString => EmptyString
  | String c r => String (ascii_upper c) (ascii_toUpperCase r)
  end.

(** The four ways through the [switch] of [mapHttpMethodToAction], [upper]
    being the upper-cased method. *)
Inductive taken (upper m : string) : result PermissionAction -> Prop :=
| case_GET : upper = "GET" -> taken upper m (Ok read)
| case_write :
    upper = "POST" \/ upper = "PUT" \/ upper = "PATCH" -> taken upper m (Ok write)
| case_DELETE : upper = "DELETE" -> taken upper m (Ok delete)
| case_default :
    upper <> "GET" -> upper <> "POST" -> upper <> "PUT" ->
    upper <> "PATCH" -> upper <> "DELETE" ->
    taken upper m (Throw ("Unsupported HTTP method: " ++ m)).

(** ** Sanity checks on concrete inputs *)

Example pm_abcd :
  PathMapper.generateResourcePatterns "a/b/c/d"
  = ["a/b/c/d"; "a/b/c/*"; "a/b/*"; "a/*"; "a/*/d"; "a/*/c/d"; "a/b/*/d"; "a/*/c/*"; "*"].
Proof. vm_compute. reflexivity. Qed.

Example p0_abcd :
  Part000.generateResourcePatterns "a/b/c/d"
  = ["a/b/c/d"; "a/b/c/*"; "a/b/*"; "a/*"; "a/*/c/d"; "a/b/*/d"; "a/*/c/*"; "*"].
Proof. vm_compute. reflexivity. Qed.

Example map_path_examples :
  PathMapper.mapPathToResource "/wallets/wallet-123" = "wallets/wallet-123"
  /\ PathMapper.mapPathToResource "/" = "*"
  /\ PathMapper.mapPathToResource "" = "*"
  /\ PathMapper.mapPathToResource "//a//B%20c/?x=/y?z" = "a//B%20c".
Proof. repeat split. Qed.

Example score_examples :
  PathMapper.calculateSpecificityScore "users/123" "users/123" = (Num 1, Num 2, Num 0)
  /\ PathMapper.calculateSpecificityScore "users/123" "users/*" = (Num 0, Num 1, Num (-1))
  /\ PathMapper.calculateSpecificityScore "users/123" "*" = (Num 0, Num 0, NegInfinity).
Proof. repeat split. Qed.

(** * Verification *)

(** ** The resolver *)

Section Resolver.

Import PermissionService PermissionRepository.

Lemma strict_eq_iff (x y : number) : strict_eq x y = true <-> x = y.
Proof.
  destruct x as [|a], y as [|b]; simpl; split; intro H;
    try reflexivity; try discriminate.
  - apply Z.eqb_eq in H. now subst.
  - injection H as ->. apply Z.eqb_refl.
Qed.

Lemma areScoresEqual_iff (s t : SpecificityScore) :
  areScoresEqual s t = true <-> s = t.
Proof.
  destruct s as [[a0 a1] a2], t as [[b0 b1] b2]. unfold areScoresEqual.
  rewrite !andb_true_iff, !strict_eq_iff. split.
  - intros [[-> ->] ->]. reflexivity.
  - intros [= -> -> ->]. auto.
Qed.

Lemma is_deny_iff (p : MatchedPermissionWithScore) :
  is_deny p = true <-> effect p = deny.
Proof. unfold is_deny. destruct (effect p); simpl; split; congruence. Qed.

(** [find] returns the first element that passes the test. *)
Lemma find_first {A} (f : A -> bool) (l : list A) (x : A) :
  find f l = Some x ->
  exists l1 l2, l = (l1 ++ x :: l2)%list /\ f x = true /\ forall y, In y l1 -> f y = false.
Proof.
  induction l as [|a l IH]; simpl; [discriminate|].
  destruct (f a) eqn:Fa.
  - intros [= ->]. exists [], l. simpl. intuition.
  - intros H. destruct (IH H) as (l1 & l2 & -> & Hx & Hl1).
    exists (a :: l1), l2. simpl. repeat split; auto.
    intros y [<-|Hy]; auto.
Qed.

Lemma find_filter {A} (f g : A -> bool) (l : list A) :
  find f (filter g l) = find (fun x => g x && f x) l.
Proof.
  induction l as [|a l IH]; simpl; [reflexivity|].
  destruct (g a); simpl; [destruct (f a)|]; auto.
Qed.

Lemma existsb_find {A} (f : A -> bool) (l : list A) :
  existsb f l = true -> exists x, find f l = Some x.
Proof.
  induction l as [|a l IH]; simpl; [discriminate|].
  destruct (f a); [eauto|]. exact IH.
Qed.

(** [resolvePermissions] never reaches the throwing branch. *)
Lemma resolvePermissions_returns ps a r :
  exists res, resolvePermissions ps a r = Ok res.
Proof.
  destruct ps as [|top rest]; [eexists; reflexivity|].
  unfold resolvePermissions.
  destruct (existsb _ _) eqn:E; [|eexists; reflexivity].
  destruct (existsb_find _ _ E) as [d ->]. eexists; reflexivity.
Qed.

End Resolver.

(** ** Fail-secure behaviour of [checkPermission] and [authorize] *)

Section FailSecure.

Import PermissionService PermissionRepository AuthorizationService.

Variable validateToken : string -> ValidationResult.
Variable toUpperCase : string -> string.

Lemma repository_throws db u a r message :
  db u a (PathMapper.generateResourcePatterns r) = Throw message ->
  findPermissionsWithWildcards db u a r = Throw message.
Proof. unfold findPermissionsWithWildcards. now intros ->. Qed.

Lemma checkPermission_on_throw db u a r message :
  findPermissionsWithWildcards db u a r = Throw message ->
  checkPermission db u a r = system_error_result.
Proof. unfold checkPermission. now intros ->. Qed.

(** C1. When the repository call inside [checkPermission] throws, whatever
    the message of the error, [checkPermission] returns the one fixed
    result: not allowed, no matched permission, and a reason that contains
    "system error" and is the same constant for every error; the response
    that [authorize] builds for a resolved (non-empty) identity [u] then
    still carries [u] as [user_id], with decision DENY and that reason. *)
Theorem C1_store_failure_is_generic_deny
    (db : Store) (u : string) (a : PermissionAction) (r message : string)
    (Hthrow : db u a (PathMapper.generateResourcePatterns r) = Throw message) :
  checkPermission db u a r = system_error_result
  /\ allowed (checkPermission db u a r) = false
  /\ matchedPermissions (checkPermission db u a r) = []
  /\ includes (reason (checkPermission db u a r)) "system error" = true
  /\ (forall db' message',
        db' u a (PathMapper.generateResourcePatterns r) = Throw message' ->
        reason (checkPermission db' u a r) = reason (checkPermission db u a r))
  /\ (forall request,
        validateToken (access_token request)
        = {| valid := true; payload := Some tt;
             userInfo := Some {| nickname := Some u |}; error := None |} ->
        u <> "" ->
        PathMapper.mapHttpMethodToAction toUpperCase (method request) = Ok a ->
        PathMapper.mapPathToResource (path request) = r ->
        authorize validateToken toUpperCase db request
        = {| decision := DENY;
             resp_user_id := u;
             resp_reason := "Permission check failed due to system error";
             matched_permissions := [] |}).
Proof.
  pose proof (checkPermission_on_throw _ _ _ _ _ (repository_throws _ _ _ _ _ Hthrow)) as E.
  rewrite E. repeat split.
  - intros db' message' H'.
    now rewrite (checkPermission_on_throw _ _ _ _ _ (repository_throws _ _ _ _ _ H')).
  - intros request Htok Hu Hact Hres. unfold authorize.
    rewrite Htok. simpl.
    apply String.eqb_neq in Hu. rewrite Hu, Hact. simpl.
    rewrite Hres, E. reflexivity.
Qed.

Lemma findPermissions_empty db u a r :
  db u a (PathMapper.generateResourcePatterns r) = Ok [] ->
  findPermissionsWithWildcards db u a r = Ok [].
Proof. unfold findPermissionsWithWildcards. now intros ->. Qed.

(** C4 (amended). With an empty candidate list [checkPermission] returns
    not allowed, no matched permission and the reason
    "No permissions found for {a} on {r}", which starts with a capital
    letter. *)
Theorem C4_empty_candidates_default_deny
    (db : Store) (u : string) (a : PermissionAction) (r : string)
    (Hempty : db u a (PathMapper.generateResourcePatterns r) = Ok []) :
  checkPermission db u a r = no_permissions_result a r
  /\ allowed (checkPermission db u a r) = false
  /\ matchedPermissions (checkPermission db u a r) = []
  /\ reason (checkPermission db u a r)
     = "No permissions found for " ++ action_text a ++ " on " ++ r
  /\ includes (reason (checkPermission db u a r)) "No permissions found" = true.
Proof.
  assert (E : checkPermission db u a r = no_permissions_result a r).
  { unfold checkPermission. now rewrite (findPermissions_empty _ _ _ _ Hempty). }
  rewrite E. repeat split.
Qed.

End FailSecure.

(** C1 at a store that throws an error of the driver. *)
Lemma C1_store_failure_is_generic_deny_witness :
  failing_store "SQLITE_BUSY: database is locked" "u1" read
    (PathMapper.generateResourcePatterns "wallets/wallet-123")
  = Throw "SQLITE_BUSY: database is locked"
  /\ PermissionService.checkPermission
       (failing_store "SQLITE_BUSY: database is locked") "u1" read "wallets/wallet-123"
     = system_error_result.
Proof.
  split; [reflexivity|].
  apply (C1_store_failure_is_generic_deny (token_of "u1") ascii_toUpperCase
           (failing_store "SQLITE_BUSY: database is locked") "u1" read
           "wallets/wallet-123" "SQLITE_BUSY: database is locked").
  reflexivity.
Defined.

(** C4 at the empty table. *)
Lemma C4_empty_candidates_default_deny_witness :
  PermissionRepository.table_store [] "u1" write
    (PathMapper.generateResourcePatterns "admin/settings") = Ok []
  /\ PermissionService.checkPermission (PermissionRepository.table_store [])
       "u1" write "admin/settings"
     = no_permissions_result write "admin/settings".
Proof.
  split; [reflexivity|].
  apply (C4_empty_candidates_default_deny (PermissionRepository.table_store [])
           "u1" write "admin/settings").
  reflexivity.
Defined.

(** C4 as stated fails: the reason of the default deny does not contain the
    text "no permissions found" in lower case. *)
Lemma C4_reason_is_capitalised :
  PermissionRepository.table_store [] "u1" write
    (PathMapper.generateResourcePatterns "admin/settings") = Ok []
  /\ reason (PermissionService.checkPermission (PermissionRepository.table_store [])
               "u1" write "admin/settings")
     = "No permissions found for write on admin/settings"
  /\ includes (reason (PermissionService.checkPermission
                         (PermissionRepository.table_store [])
                         "u1" write "admin/settings"))
       "no permissions found" = false.
Proof. repeat split. Qed.

(** ** Conflict resolution *)

Section Conflicts.

Import PermissionService PermissionRepository.

Lemma tied_deny_found top ps :
  (exists p, In p ps /\ score p = score top /\ effect p = deny) ->
  existsb is_deny (tiedGroup top ps) = true.
Proof.
  intros (p & Hin & Hs & He). apply existsb_exists. exists p. split.
  - apply filter_In. split; [exact Hin|]. now apply areScoresEqual_iff.
  - now apply is_deny_iff.
Qed.

(** C3. On a non-empty candidate list with first record [top], if some
    record with the score of [top] is a deny, the result is not allowed
    and the matched permissions are exactly the first deny record [d] of
    the tied group: [d] is a deny with the score of [top], and no record
    in front of it in the list is.  In particular an allow and a deny on
    the same pattern, in either order, resolve to a denial by the deny
    record. *)
Theorem C3_deny_wins_in_tied_group
    (top : MatchedPermissionWithScore) (rest : list MatchedPermissionWithScore)
    (a : PermissionAction) (r : string)
    (Hdeny : exists p, In p (top :: rest) /\ score p = score top /\ effect p = deny) :
  (exists d,
      resolvePermissions (top :: rest) a r = Ok (denied_by d a r)
      /\ find is_deny (tiedGroup top (top :: rest)) = Some d
      /\ effect d = deny /\ score d = score top
      /\ exists before after,
          top :: rest = (before ++ d :: after)%list
          /\ forall q, In q before -> ~ (score q = score top /\ effect q = deny))
  /\ (forall pattern : string,
        let al := with_score r {| mp_action := a; mp_resource := pattern; mp_effect := allow |} in
        let dn := with_score r {| mp_action := a; mp_resource := pattern; mp_effect := deny |} in
        resolvePermissions [al; dn] a r = Ok (denied_by dn a r)
        /\ resolvePermissions [dn; al] a r = Ok (denied_by dn a r)).
Proof.
  split.
  - pose proof (tied_deny_found _ _ Hdeny) as E.
    destruct (existsb_find _ _ E) as [d Hd].
    exists d. unfold resolvePermissions. fold (tiedGroup top (top :: rest)).
    rewrite E, Hd. split; [reflexivity|]. split; [reflexivity|].
    unfold tiedGroup in Hd. rewrite find_filter in Hd.
    destruct (find_first _ _ _ Hd) as (l1 & l2 & Hl & Hx & Hl1).
    apply andb_true_iff in Hx as [Hs Hx].
    apply areScoresEqual_iff in Hs. apply is_deny_iff in Hx.
    repeat split; auto.
    exists l1, l2. split; [exact Hl|].
    intros q Hq [Hqs Hqd]. specialize (Hl1 q Hq).
    apply areScoresEqual_iff in Hqs. apply is_deny_iff in Hqd.
    rewrite Hqs, Hqd in Hl1. discriminate.
  - intros pattern al dn.
    assert (Hrefl : forall s, areScoresEqual s s = true)
      by (intro s; now apply areScoresEqual_iff).
    unfold resolvePermissions. subst al dn. unfold with_score.
    cbn [filter score effect mp_effect mp_resource].
    rewrite !Hrefl. split; reflexivity.
Qed.

Lemma two_candidates {A} (x y : A) (l : list A) :
  (forall z, In z l <-> z = x \/ z = y) -> List.length l = 2 -> x <> y ->
  l = [x; y] \/ l = [y; x].
Proof.
  intros Hin Hlen Hxy.
  destruct l as [|p [|q [|? ?]]]; try discriminate.
  assert (Hp : p = x \/ p = y) by (apply Hin; simpl; auto).
  assert (Hq : q = x \/ q = y) by (apply Hin; simpl; auto).
  assert (Hx : x = p \/ x = q) by (destruct (proj2 (Hin x)) as [|[|[]]]; auto).
  assert (Hy : y = p \/ y = q) by (destruct (proj2 (Hin y)) as [|[|[]]]; auto).
  destruct Hp, Hq; subst; auto; destruct Hx, Hy; congruence.
Qed.

(** C2. Any candidate list made of exactly the deny on [wallets/*] and the
    allow on [wallets/wallet-123], in the prescribed order, resolves for
    (write, [wallets/wallet-123]) to a denial whose only matched permission
    is the [wallets/*] deny; the repository produces that order from
    either order of the rows, and [checkPermission] on a table holding
    the two rows returns that denial. *)
Theorem C2_unspecific_deny_defeats_exact_allow
    (ps : list MatchedPermissionWithScore)
    (Hmembers : forall p, In p ps <-> p = scored wallets_deny \/ p = scored wallet_123_allow)
    (Htwo : List.length ps = 2)
    (Hordered : prescribed_order ps = true) :
  ps = [scored wallets_deny; scored wallet_123_allow]
  /\ resolvePermissions ps write "wallets/wallet-123"
     = Ok {| allowed := false;
             matchedPermissions := [scored wallets_deny];
             reason := "User is denied write permission by pattern wallets/*" |}
  /\ sort compareFn (map scored [wallet_123_allow; wallets_deny]) = ps
  /\ sort compareFn (map scored [wallets_deny; wallet_123_allow]) = ps
  /\ checkPermission (table_store wallet_rows) "u1" write "wallets/wallet-123"
     = {| allowed := false;
          matchedPermissions := [scored wallets_deny];
          reason := "User is denied write permission by pattern wallets/*" |}.
Proof.
  assert (Hps : ps = [scored wallets_deny; scored wallet_123_allow]).
  { destruct (two_candidates _ _ _ Hmembers Htwo) as [E|E];
      [discriminate | exact E | subst ps; discriminate Hordered]. }
  subst ps. repeat split.
Qed.

End Conflicts.

(** C3 at an allow and a deny on [wallets/*], the allow standing first. *)
Lemma C3_deny_wins_in_tied_group_witness :
  exists d,
    PermissionService.resolvePermissions
      [PermissionRepository.with_score "wallets/w1"
         {| mp_action := read; mp_resource := "wallets/*"; mp_effect := allow |};
       PermissionRepository.with_score "wallets/w1"
         {| mp_action := read; mp_resource := "wallets/*"; mp_effect := deny |}]
      read "wallets/w1"
    = Ok (denied_by d read "wallets/w1")
    /\ effect d = deny.
Proof.
  destruct (C3_deny_wins_in_tied_group
              (PermissionRepository.with_score "wallets/w1"
                 {| mp_action := read; mp_resource := "wallets/*"; mp_effect := allow |})
              [PermissionRepository.with_score "wallets/w1"
                 {| mp_action := read; mp_resource := "wallets/*"; mp_effect := deny |}]
              read "wallets/w1") as [(d & H1 & _ & H2 & _) _].
  - eexists. split; [right; left; reflexivity|]. split; reflexivity.
  - exists d. split; assumption.
Defined.

(** C2 at the list the repository returns. *)
Lemma C2_unspecific_deny_defeats_exact_allow_witness :
  PermissionService.resolvePermissions
    [scored wallets_deny; scored wallet_123_allow] write "wallets/wallet-123"
  = Ok {| allowed := false;
          matchedPermissions := [scored wallets_deny];
          reason := "User is denied write permission by pattern wallets/*" |}.
Proof.
  apply (C2_unspecific_deny_defeats_exact_allow
           [scored wallets_deny; scored wallet_123_allow]).
  - intros p. simpl. intuition.
  - reflexivity.
  - reflexivity.
Defined.

(** ** The identifier normalizer *)

Section Normalizer.

Variable toUpperCase : string -> string.

Local Abbreviation mapAction := (PathMapper.mapHttpMethodToAction toUpperCase).

Lemma mapAction_taken (m : string) : taken (toUpperCase m) m (mapAction m).
Proof.
  unfold PathMapper.mapHttpMethodToAction.
  destruct (String.eqb_spec (toUpperCase m) "GET"); [now constructor|].
  destruct (String.eqb_spec (toUpperCase m) "POST"); [constructor; auto|].
  destruct (String.eqb_spec (toUpperCase m) "PUT"); [constructor; auto|].
  destruct (String.eqb_spec (toUpperCase m) "PATCH"); [constructor; auto|].
  destruct (String.eqb_spec (toUpperCase m) "DELETE"); now constructor.
Qed.

Ltac by_case m :=
  let T := fresh "T" in
  pose proof (mapAction_taken m) as T; inversion T;
  repeat match goal with H : _ \/ _ |- _ => destruct H end;
  try congruence; try contradiction.

Lemma mapAction_GET m : toUpperCase m = "GET" -> mapAction m = Ok read.
Proof. intros U. by_case m. Qed.

Lemma mapAction_write m :
  toUpperCase m = "POST" \/ toUpperCase m = "PUT" \/ toUpperCase m = "PATCH" ->
  mapAction m = Ok write.
Proof. intros U. by_case m. Qed.

Lemma mapAction_DELETE m : toUpperCase m = "DELETE" -> mapAction m = Ok delete.
Proof. intros U. by_case m. Qed.

Lemma mapAction_throws_iff m :
  (exists message, mapAction m = Throw message)
  <-> ~ In (toUpperCase m) ["GET"; "POST"; "PUT"; "PATCH"; "DELETE"].
Proof.
  simpl. split.
  - intros [message E] U. by_case m.
  - intros U. by_case m; try (exfalso; apply U; auto 7; fail).
    eexists; reflexivity.
Qed.

Lemma mapAction_message m message :
  mapAction m = Throw message -> message = "Unsupported HTTP method: " ++ m.
Proof.
  intros E. pose proof (mapAction_taken m) as T. rewrite E in T.
  inversion T. reflexivity.
Qed.

Lemma mapAction_insensitive m m' :
  toUpperCase m' = toUpperCase m ->
  match mapAction m, mapAction m' with
  | Ok a, Ok a' => a = a'
  | Throw _, Throw _ => True
  | _, _ => False
  end.
Proof.
  intros U.
  pose proof (mapAction_taken m) as T; pose proof (mapAction_taken m') as T'.
  rewrite U in T'.
  destruct T, T'; auto;
    repeat match goal with H : _ \/ _ |- _ => destruct H end; congruence.
Qed.

(** C7. [mapHttpMethodToAction] looks only at the upper-cased method:
    GET gives read; POST, PUT and PATCH give write; DELETE gives delete;
    it throws exactly when the upper-cased method is none of these five,
    and the message of the error then ends with the method as it was
    passed.  Two methods with the same upper-casing are mapped alike. *)
Theorem C7_method_mapping (m : string) :
  (toUpperCase m = "GET" -> PathMapper.mapHttpMethodToAction toUpperCase m = Ok read)
  /\ (toUpperCase m = "POST" \/ toUpperCase m = "PUT" \/ toUpperCase m = "PATCH" ->
      PathMapper.mapHttpMethodToAction toUpperCase m = Ok write)
  /\ (toUpperCase m = "DELETE" -> PathMapper.mapHttpMethodToAction toUpperCase m = Ok delete)
  /\ ((exists message, PathMapper.mapHttpMethodToAction toUpperCase m = Throw message)
      <-> ~ In (toUpperCase m) ["GET"; "POST"; "PUT"; "PATCH"; "DELETE"])
  /\ (forall message, PathMapper.mapHttpMethodToAction toUpperCase m = Throw message ->
                      message = "Unsupported HTTP method: " ++ m)
  /\ (forall m', toUpperCase m' = toUpperCase m ->
                 match PathMapper.mapHttpMethodToAction toUpperCase m, PathMapper.mapHttpMethodToAction toUpperCase m' with
                 | Ok a, Ok a' => a = a'
                 | Throw _, Throw _ => True
                 | _, _ => False
                 end).
Proof.
  split; [apply mapAction_GET|].
  split; [apply mapAction_write|].
  split; [apply mapAction_DELETE|].
  split; [apply mapAction_throws_iff|].
  split; [apply mapAction_message|apply mapAction_insensitive].
Qed.

End Normalizer.

(** C7 at the lower-case method [get], upper-cased as ASCII text. *)
Lemma C7_method_mapping_witness :
  ascii_toUpperCase "get" = "GET"
  /\ PathMapper.mapHttpMethodToAction ascii_toUpperCase "get" = Ok read.
Proof.
  split; [reflexivity|].
  apply (C7_method_mapping ascii_toUpperCase "get"). reflexivity.
Defined.

Example unsupported_method :
  PathMapper.mapHttpMethodToAction ascii_toUpperCase "options"
  = Throw "Unsupported HTTP method: options".
Proof. reflexivity. Qed.


(** ** Strings: [split], [join] and counting *)

Section Strings.

Variable sep : ascii.

Lemma append_assoc (a b c : string) : (a ++ b) ++ c = a ++ (b ++ c).
Proof. induction a as [|x a IH]; simpl; [reflexivity|now rewrite IH]. Qed.

Lemma split_cons (s : string) : exists h t, split sep s = h :: t.
Proof.
  induction s as [|c s (h & t & IH)]; simpl; [eauto|].
  destruct (Ascii.eqb c sep); [eauto|]. rewrite IH. eauto.
Qed.

Lemma split_length_pos (s : string) : 1 <= List.length (split sep s).
Proof. destruct (split_cons s) as (h & t & ->). simpl. lia. Qed.

(** No segment contains the separator. *)
Lemma split_segments_free (s : string) :
  Forall (fun seg => count_char sep seg = 0) (split sep s).
Proof.
  induction s as [|c s IH]; simpl; [repeat constructor|].
  destruct (Ascii.eqb c sep) eqn:E; [constructor; [reflexivity|exact IH]|].
  destruct (split sep s) as [|h t]; [repeat constructor; simpl; now rewrite E|].
  inversion IH; subst. constructor; [simpl; now rewrite E|assumption].
Qed.

Lemma split_free (s : string) : count_char sep s = 0 -> split sep s = [s].
Proof.
  induction s as [|c s IH]; simpl; [reflexivity|].
  destruct (Ascii.eqb c sep); [discriminate|]. intros H. now rewrite IH.
Qed.

Lemma split_app (x t : string) :
  count_char sep x = 0 -> split sep (x ++ String sep t) = x :: split sep t.
Proof.
  induction x as [|c x IH]; simpl.
  - intros _. now rewrite Ascii.eqb_refl.
  - destruct (Ascii.eqb c sep); [discriminate|]. intros H. now rewrite IH.
Qed.

Lemma join_cons (d x y : string) (l : list string) :
  join d (x :: y :: l) = x ++ d ++ join d (y :: l).
Proof. reflexivity. Qed.

Lemma join_cons_char (d : string) (c : ascii) (h : string) (t : list string) :
  join d (String c h :: t) = String c (join d (h :: t)).
Proof. destruct t; reflexivity. Qed.

Lemma join_split (s : string) : join (String sep "") (split sep s) = s.
Proof.
  induction s as [|c s IH]; simpl; [reflexivity|].
  destruct (split_cons s) as (h & t & E). rewrite E in *.
  destruct (Ascii.eqb_spec c sep) as [->|N].
  - rewrite join_cons, IH. reflexivity.
  - rewrite join_cons_char, IH. reflexivity.
Qed.

Lemma count_char_app (c : ascii) (a b : string) :
  count_char c (a ++ b) = count_char c a + count_char c b.
Proof. induction a as [|x a IH]; simpl; [reflexivity|rewrite IH; lia]. Qed.

(** A character other than the separator is counted segment by segment. *)
Lemma count_char_split (c : ascii) (s : string) :
  c <> sep ->
  count_char c s = list_sum (map (count_char c) (split sep s)).
Proof.
  intros N. induction s as [|x s IH]; simpl; [reflexivity|].
  destruct (Ascii.eqb_spec x sep) as [->|Nx].
  - simpl. destruct (Ascii.eqb_spec sep c); [congruence|]. exact IH.
  - destruct (split_cons s) as (h & t & E). rewrite E in *. simpl in *. lia.
Qed.

End Strings.

(** ** The specificity scorer *)

Section Scorer.

Import PathMapper.

Lemma gt_Num (a b : Z) : gt (Num a) (Num b) = true <-> (b < a)%Z.
Proof. simpl. apply Z.ltb_lt. Qed.

(** [score_gt] is the order the comparator of the repository sorts by:
    the higher score is placed first. *)
Lemma score_gt_by_score (s t : SpecificityScore) :
  score_gt s t = true ->
  PermissionRepository.by_score
    (PermissionRepository.components s) (PermissionRepository.components t)
  = PermissionRepository.Negative.
Proof.
  destruct s as [[a0 a1] a2], t as [[b0 b1] b2].
  unfold score_gt, PermissionRepository.components, PermissionRepository.by_score,
    PermissionRepository.minus_sign.
  destruct a0 as [|a0], b0 as [|b0], a1 as [|a1], b1 as [|b1],
    a2 as [|a2], b2 as [|b2]; simpl;
    repeat match goal with
      | |- context [(?x =? ?y)%Z] => destruct (Z.eqb_spec x y)
      | |- context [(?x <? ?y)%Z] => destruct (Z.ltb_spec x y)
      end; simpl; try reflexivity; try discriminate; try lia.
Qed.

Lemma patterns_of_global : generateResourcePatterns "*" = ["*"].
Proof. reflexivity. Qed.

Lemma part000_patterns_of_global : Part000.generateResourcePatterns "*" = ["*"].
Proof. reflexivity. Qed.

Lemma exactness_of_exact (R : string) :
  R <> "*" -> fst (fst (calculateSpecificityScore R R)) = Num 1.
Proof.
  intros N. unfold calculateSpecificityScore.
  apply String.eqb_neq in N. rewrite N, String.eqb_refl. reflexivity.
Qed.

Lemma exactness_of_other (R P : string) :
  P <> R -> fst (fst (calculateSpecificityScore R P)) = Num 0.
Proof.
  intros N. unfold calculateSpecificityScore.
  destruct (P =? "*"); [reflexivity|].
  assert (E : (R =? P) = false) by (apply String.eqb_neq; congruence).
  rewrite E. reflexivity.
Qed.

Lemma score_gt_by_exactness (s t : SpecificityScore) :
  fst (fst s) = Num 1 -> fst (fst t) = Num 0 -> score_gt s t = true.
Proof.
  destruct s as [[a0 a1] a2], t as [[b0 b1] b2]. simpl.
  intros -> ->. reflexivity.
Qed.

(** C5. The score of the resource itself is lexicographically above the
    score of every other pattern that either pattern generator produces for
    it; the comparator of the repository therefore sorts the exact record
    in front. *)
Theorem C5_exact_match_dominates (R P : string)
    (Hgen : In P (generateResourcePatterns R) \/ In P (Part000.generateResourcePatterns R))
    (Hother : P <> R) :
  score_gt (calculateSpecificityScore R R) (calculateSpecificityScore R P) = true
  /\ PermissionRepository.by_score
       (PermissionRepository.components (calculateSpecificityScore R R))
       (PermissionRepository.components (calculateSpecificityScore R P))
     = PermissionRepository.Negative.
Proof.
  assert (G : score_gt (calculateSpecificityScore R R) (calculateSpecificityScore R P) = true).
  { destruct (string_dec R "*") as [->|N].
    - rewrite patterns_of_global, part000_patterns_of_global in Hgen.
      simpl in Hgen. exfalso. intuition congruence.
    - apply score_gt_by_exactness;
        [now apply exactness_of_exact | now apply exactness_of_other]. }
  split; [exact G | now apply score_gt_by_score].
Qed.

Lemma filter_partition_length {A} (f : A -> bool) (l : list A) :
  List.length (filter f l) + List.length (filter (fun x => negb (f x)) l) = List.length l.
Proof.
  induction l as [|x l IH]; simpl; [reflexivity|].
  destruct (f x); simpl; lia.
Qed.

(** In a pattern made of wildcard tokens and star-free text, the stars are
    the wildcard segments. *)
Lemma stars_of_shaped_segments (segs : list string) :
  forallb (fun seg => is_wildcard seg || (count_char "*" seg =? 0)%nat) segs = true ->
  list_sum (map (count_char "*") segs) = List.length (filter is_wildcard segs).
Proof.
  induction segs as [|seg segs IH]; simpl; [reflexivity|].
  intros H. apply andb_true_iff in H as [Hseg Hrest]. rewrite (IH Hrest).
  unfold is_wildcard in *. destruct (String.eqb_spec seg "*") as [->|N]; simpl in *.
  - reflexivity.
  - apply Nat.eqb_eq in Hseg. now rewrite Hseg.
Qed.

Lemma stars_of_shaped (P : string) :
  segment_shaped P = true -> count_char "*" P = wildcard_segments P.
Proof.
  intros H. unfold wildcard_segments, segments_of.
  rewrite (count_char_split "/" "*" P) by discriminate.
  now apply stars_of_shaped_segments.
Qed.

Lemma specificity_of_shaped (R P : string) :
  segment_shaped P = true ->
  specificity (calculateSpecificityScore R P) = Num (Z.of_nat (literal_segments P)).
Proof.
  intros H. unfold calculateSpecificityScore.
  destruct (String.eqb_spec P "*") as [->|N]; [reflexivity|].
  unfold specificity. simpl. f_equal.
  rewrite (stars_of_shaped P H).
  pose proof (filter_partition_length is_wildcard (segments_of P)) as L.
  unfold wildcard_segments, literal_segments, segments_of in *. lia.
Qed.

(** C9. For two patterns whose segments are wildcard tokens or star-free
    text, the first having strictly more literal segments and no more
    wildcard segments than the second, the second score component of the
    first is strictly greater, also when the second pattern is ["*"]. *)
Theorem C9_more_literals_higher_specificity (R P1 P2 : string)
    (Hshape1 : segment_shaped P1 = true)
    (Hshape2 : segment_shaped P2 = true)
    (Hliteral : literal_segments P2 < literal_segments P1)
    (Hwild : wildcard_segments P1 <= wildcard_segments P2) :
  gt (specificity (calculateSpecificityScore R P1))
     (specificity (calculateSpecificityScore R P2)) = true.
Proof.
  rewrite !specificity_of_shaped by assumption.
  apply gt_Num. lia.
Qed.

End Scorer.

(** C5 at the parent pattern of a wallet. *)
Lemma C5_exact_match_dominates_witness :
  score_gt (PathMapper.calculateSpecificityScore "wallets/wallet-123" "wallets/wallet-123")
           (PathMapper.calculateSpecificityScore "wallets/wallet-123" "wallets/*") = true.
Proof.
  apply (C5_exact_match_dominates "wallets/wallet-123" "wallets/*").
  - left. simpl. auto.
  - discriminate.
Defined.

(** C9 at a pattern against the global pattern. *)
Lemma C9_more_literals_higher_specificity_witness :
  gt (specificity (PathMapper.calculateSpecificityScore "wallets/w1/tx" "wallets/*"))
     (specificity (PathMapper.calculateSpecificityScore "wallets/w1/tx" "*")) = true.
Proof.
  apply (C9_more_literals_higher_specificity "wallets/w1/tx" "wallets/*" "*").
  - reflexivity.
  - reflexivity.
  - cbv. lia.
  - cbv. lia.
Defined.

(** ** The order of the candidate list *)

Section Ordering.

Import PermissionRepository.

Lemma gt_trans (a b c : number) : gt a b = true -> gt b c = true -> gt a c = true.
Proof.
  destruct a, b, c; simpl; try discriminate; try reflexivity.
  rewrite !Z.ltb_lt. lia.
Qed.

Lemma gt_irrefl (a : number) : gt a a = false.
Proof. destruct a; simpl; [reflexivity|apply Z.ltb_irrefl]. Qed.

Lemma gt_trichotomy (a b : number) : gt a b = true \/ a = b \/ gt b a = true.
Proof.
  destruct a as [|a], b as [|b]; simpl; auto.
  rewrite !Z.ltb_lt. destruct (Z.lt_trichotomy a b) as [H|[->|H]]; auto.
Qed.

Lemma score_gt_iff (s t : SpecificityScore) :
  score_gt s t = true
  <-> gt (fst (fst s)) (fst (fst t)) = true
      \/ (fst (fst s) = fst (fst t)
          /\ (gt (snd (fst s)) (snd (fst t)) = true
              \/ (snd (fst s) = snd (fst t) /\ gt (snd s) (snd t) = true))).
Proof.
  destruct s as [[a0 a1] a2], t as [[b0 b1] b2]. unfold score_gt. simpl.
  rewrite !orb_true_iff, !andb_true_iff, !orb_true_iff, !andb_true_iff, !strict_eq_iff.
  reflexivity.
Qed.

Lemma score_gt_trans (s t u : SpecificityScore) :
  score_gt s t = true -> score_gt t u = true -> score_gt s u = true.
Proof.
  rewrite !score_gt_iff.
  intros [H|[E [H|[E' H]]]] [K|[F [K|[F' K]]]];
    rewrite ?E, ?E', <- ?F, <- ?F'; eauto 6 using gt_trans;
    try (rewrite <- F in *); try (rewrite <- F' in *); eauto 6 using gt_trans.
Qed.

Lemma score_gt_irrefl (s : SpecificityScore) : score_gt s s = false.
Proof.
  destruct (score_gt s s) eqn:E; [|reflexivity].
  apply score_gt_iff in E. rewrite !gt_irrefl in E.
  destruct E as [E|[_ [E|[_ E]]]]; discriminate.
Qed.

Lemma score_gt_trichotomy (s t : SpecificityScore) :
  score_gt s t = true \/ s = t \/ score_gt t s = true.
Proof.
  rewrite !score_gt_iff. destruct s as [[a0 a1] a2], t as [[b0 b1] b2]. simpl.
  destruct (gt_trichotomy a0 b0) as [H|[->|H]]; [tauto| |tauto].
  destruct (gt_trichotomy a1 b1) as [H|[->|H]]; [tauto| |tauto].
  destruct (gt_trichotomy a2 b2) as [H|[->|H]]; tauto.
Qed.

Lemma by_score_positive (s t : SpecificityScore) :
  by_score (components s) (components t) = Positive <-> score_gt t s = true.
Proof.
  split.
  - destruct (score_gt_trichotomy s t) as [H|[->|H]]; [| |auto].
    + rewrite (score_gt_by_score _ _ H). discriminate.
    + destruct t as [[b0 b1] b2]. simpl.
      assert (R : forall x, strict_eq x x = true) by (intro; now apply strict_eq_iff).
      rewrite !R. discriminate.
  - destruct s as [[a0 a1] a2], t as [[b0 b1] b2]. rewrite score_gt_iff. simpl.
    unfold minus_sign.
    intros [H|[-> [H|[-> H]]]].
    + destruct (strict_eq a0 b0) eqn:E; [|now rewrite H].
      apply strict_eq_iff in E. subst. rewrite gt_irrefl in H. discriminate.
    + assert (R : forall x, strict_eq x x = true) by (intro; now apply strict_eq_iff).
      rewrite R. simpl.
      destruct (strict_eq a1 b1) eqn:E; [|now rewrite H].
      apply strict_eq_iff in E. subst. rewrite gt_irrefl in H. discriminate.
    + assert (R : forall x, strict_eq x x = true) by (intro; now apply strict_eq_iff).
      rewrite !R. simpl.
      destruct (strict_eq a2 b2) eqn:E; [|now rewrite H].
      apply strict_eq_iff in E. subst. rewrite gt_irrefl in H. discriminate.
Qed.

(** The comparator puts [x] after [y] exactly when [x] may not precede [y]. *)
Lemma compareFn_positive (x y : MatchedPermissionWithScore) :
  compareFn x y = Positive <-> may_precede x y = false.
Proof.
  unfold compareFn, may_precede.
  destruct (effect x), (effect y); simpl;
    rewrite ?by_score_positive, ?negb_false_iff; split; congruence.
Qed.

Lemma score_gt_asym (s t : SpecificityScore) :
  score_gt s t = true -> score_gt t s = false.
Proof.
  intros H. destruct (score_gt t s) eqn:E; [|reflexivity].
  pose proof (score_gt_trans _ _ _ H E) as T.
  rewrite score_gt_irrefl in T. discriminate.
Qed.

Lemma score_ge_trans (s t u : SpecificityScore) :
  score_gt t s = false -> score_gt u t = false -> score_gt u s = false.
Proof.
  intros H K. destruct (score_gt u s) eqn:E; [|reflexivity].
  destruct (score_gt_trichotomy s t) as [G|[G|G]].
  - rewrite (score_gt_trans _ _ _ E G) in K. discriminate.
  - rewrite <- G, E in K. discriminate.
  - rewrite G in H. discriminate.
Qed.

Lemma may_precede_total (x y : MatchedPermissionWithScore) :
  may_precede x y = false -> may_precede y x = true.
Proof.
  unfold may_precede. destruct (effect x), (effect y); intros H;
    try reflexivity; try discriminate H;
    apply negb_false_iff in H; apply negb_true_iff; now apply score_gt_asym.
Qed.

Lemma may_precede_trans (x y z : MatchedPermissionWithScore) :
  may_precede x y = true -> may_precede y z = true -> may_precede x z = true.
Proof.
  unfold may_precede.
  destruct (effect x), (effect y), (effect z); intros H K;
    try reflexivity; try discriminate;
    apply negb_true_iff in H, K; apply negb_true_iff; eapply score_ge_trans; eauto.
Qed.

Lemma insert_members {A} (cmp : A -> A -> sign) (x : A) (l : list A) (y : A) :
  In y (insert cmp x l) <-> y = x \/ In y l.
Proof.
  induction l as [|z l IH]; simpl; [intuition|].
  destruct (cmp x z); simpl; rewrite ?IH; intuition.
Qed.

Lemma insert_keeps_order (x : MatchedPermissionWithScore)
    (l : list MatchedPermissionWithScore) :
  prescribed_order l = true -> prescribed_order (insert compareFn x l) = true.
Proof.
  induction l as [|y l IH]; [reflexivity|].
  cbn [prescribed_order insert]. intros H. apply andb_true_iff in H as [Hy Hl].
  rewrite forallb_forall in Hy.
  destruct (compareFn x y) eqn:C.
  - assert (P : may_precede x y = true).
    { destruct (may_precede x y) eqn:E; [reflexivity|].
      apply compareFn_positive in E. congruence. }
    cbn [prescribed_order forallb]. rewrite P, Hl. simpl.
    rewrite andb_true_r. rewrite andb_true_iff. split; [|apply forallb_forall; exact Hy].
    apply forallb_forall. intros z Hz. eapply may_precede_trans; eauto.
  - assert (P : may_precede x y = true).
    { destruct (may_precede x y) eqn:E; [reflexivity|].
      apply compareFn_positive in E. congruence. }
    cbn [prescribed_order forallb]. rewrite P, Hl. simpl.
    rewrite andb_true_r. rewrite andb_true_iff. split; [|apply forallb_forall; exact Hy].
    apply forallb_forall. intros z Hz. eapply may_precede_trans; eauto.
  - cbn [prescribed_order]. rewrite (IH Hl), andb_true_r.
    apply forallb_forall. intros z Hz. apply insert_members in Hz as [->|Hz]; [|auto].
    apply may_precede_total. now apply compareFn_positive.
Qed.

(** The list the repository returns is in the prescribed order. *)
Lemma sort_prescribed_order (l : list MatchedPermissionWithScore) :
  prescribed_order (sort compareFn l) = true.
Proof.
  induction l as [|x l IH]; [reflexivity|].
  cbn [sort fold_right]. now apply insert_keeps_order.
Qed.

End Ordering.

(** ** Path normalisation *)

Section PathNormalisation.

Import PathMapper.

Local Abbreviation chars := list_ascii_of_string.

Lemma replace_leading_chars (s : string) :
  chars (replace_leading "/" s) = dropWhile is_slash (chars s).
Proof.
  induction s as [|c s IH]; [reflexivity|].
  cbn [replace_leading chars dropWhile]. unfold is_slash at 1.
  destruct (Ascii.eqb c "/"); [exact IH|reflexivity].
Qed.

Lemma first_piece_chars (s : string) :
  chars (hd "" (split "?" s)) = takeWhile not_question (chars s).
Proof.
  induction s as [|c s IH]; [reflexivity|].
  cbn [split chars takeWhile]. unfold not_question at 1.
  destruct (Ascii.eqb c "?"); [reflexivity|].
  destruct (split "?" s) as [|h t]; cbn [hd chars negb] in *; now rewrite <- IH.
Qed.

Lemma only_char_chars (s : string) :
  only_char "/" s = forallb is_slash (chars s).
Proof. induction s as [|c s IH]; simpl; [reflexivity|now rewrite IH]. Qed.

Lemma dropWhile_all {A} (f : A -> bool) (l : list A) :
  forallb f l = true -> dropWhile f l = [].
Proof.
  induction l as [|x l IH]; simpl; [reflexivity|].
  destruct (f x); [exact IH|discriminate].
Qed.

Lemma dropWhile_snoc {A} (f : A -> bool) (l : list A) (x : A) :
  dropWhile f (l ++ [x])%list
  = if forallb f l then dropWhile f [x] else (dropWhile f l ++ [x])%list.
Proof.
  induction l as [|y l IH]; simpl; [reflexivity|].
  destruct (f y); simpl; [exact IH|reflexivity].
Qed.

Lemma forallb_rev {A} (f : A -> bool) (l : list A) :
  forallb f (rev l) = forallb f l.
Proof.
  induction l as [|x l IH]; simpl; [reflexivity|].
  rewrite forallb_app, IH. simpl. rewrite andb_true_r. apply andb_comm.
Qed.

Lemma replace_trailing_chars (s : string) :
  chars (replace_trailing "/" s) = rev (dropWhile is_slash (rev (chars s))).
Proof.
  induction s as [|c s IH]; [reflexivity|].
  cbn [replace_trailing]. rewrite only_char_chars. cbn [chars forallb rev].
  rewrite dropWhile_snoc, forallb_rev.
  destruct (is_slash c) eqn:Ec, (forallb is_slash (chars s)) eqn:Es; simpl;
    rewrite ?Ec; simpl.
  - reflexivity.
  - rewrite rev_app_distr. simpl. now rewrite IH.
  - rewrite IH, dropWhile_all by (now rewrite forallb_rev). reflexivity.
  - rewrite rev_app_distr. simpl. now rewrite IH.
Qed.

Lemma mapPathToResource_refines (p : string) :
  mapPathToResource p = spec_mapResource p.
Proof.
  unfold mapPathToResource, spec_mapResource.
  rewrite <- replace_leading_chars, <- first_piece_chars, <- replace_trailing_chars.
  destruct (replace_trailing "/" _) as [|c x] eqn:E; [reflexivity|].
  change ((String c x =? "")) with false. cbn [chars].
  rewrite <- (string_of_list_ascii_of_string (String c x)) at 1. reflexivity.
Qed.

Lemma takeWhile_all {A} (f : A -> bool) (l : list A) :
  forallb f l = true -> takeWhile f l = l.
Proof.
  induction l as [|x l IH]; simpl; [reflexivity|].
  destruct (f x); [intros H; now rewrite IH|discriminate].
Qed.

Lemma spec_mapResource_clean (p : string) :
  already_clean p = true -> spec_mapResource p = p.
Proof.
  unfold already_clean, spec_mapResource.
  destruct (chars p) as [|c l] eqn:E; [discriminate|].
  destruct (rev (c :: l)) as [|d l'] eqn:R; [discriminate|].
  intros H. apply andb_true_iff in H as [H Hq]. apply andb_true_iff in H as [Hc Hd].
  apply negb_true_iff in Hc, Hd.
  cbn [dropWhile]. rewrite Hc, (takeWhile_all _ _ Hq), R.
  cbn [dropWhile]. rewrite Hd, <- R, rev_involutive, <- E.
  apply string_of_list_ascii_of_string.
Qed.

(** C8. [mapPathToResource] is the normalisation the specification words:
    leading slashes dropped, then cut at the first question mark, then
    trailing slashes dropped, the empty outcome replaced by ["*"]; a path
    with nothing to strip is returned as it is, character for character. *)
Theorem C8_path_normalisation (p : string) :
  mapPathToResource p = spec_mapResource p
  /\ (already_clean p = true -> mapPathToResource p = p)
  /\ (replace_trailing "/" (hd "" (split "?" (replace_leading "/" p))) = "" ->
      mapPathToResource p = "*")
  /\ (replace_trailing "/" (hd "" (split "?" (replace_leading "/" p))) <> "" ->
      mapPathToResource p
      = replace_trailing "/" (hd "" (split "?" (replace_leading "/" p)))).
Proof.
  split; [apply mapPathToResource_refines|].
  split; [intros H; rewrite mapPathToResource_refines; now apply spec_mapResource_clean|].
  unfold mapPathToResource. split.
  - intros ->. reflexivity.
  - intros N. apply String.eqb_neq in N. now rewrite N.
Qed.

End PathNormalisation.

(** C8 at a path with a doubled slash, capitals and a percent escape. *)
Lemma C8_path_normalisation_witness :
  already_clean "a//B%20c" = true
  /\ PathMapper.mapPathToResource "a//B%20c" = "a//B%20c".
Proof.
  split; [reflexivity|].
  exact (proj1 (proj2 (C8_path_normalisation "a//B%20c")) eq_refl).
Defined.

(** ** Sets in insertion order and loops *)

Section SetsAndLoops.

Lemma has_In (set : list string) (x : string) : has set x = true <-> In x set.
Proof.
  unfold has. rewrite existsb_exists. split.
  - intros (y & Hy & E). apply String.eqb_eq in E. now subst.
  - intros H. exists x. split; [exact H|apply String.eqb_refl].
Qed.

Lemma In_push {A} (arr : list A) (x y : A) : In y (push arr x) <-> In y arr \/ y = x.
Proof. unfold push. rewrite in_app_iff. simpl. intuition. Qed.

Lemma In_add (set : list string) (x y : string) :
  In y (add set x) <-> In y set \/ y = x.
Proof.
  unfold add. destruct (has set x) eqn:H; [|apply In_push].
  apply has_In in H. intuition. now subst.
Qed.

(** The guarded form [if (!set.has(x)) set.add(x)] is [set.add(x)]. *)
Lemma guarded_add (set : list string) (x : string) :
  (if negb (has set x) then add set x else set) = add set x.
Proof. unfold add. now destruct (has set x). Qed.

Lemma In_new_Set_from (arr acc : list string) (y : string) :
  In y (fold_left add arr acc) <-> In y acc \/ In y arr.
Proof.
  revert acc. induction arr as [|x arr IH]; intros acc; simpl; [intuition|].
  rewrite IH, In_add. intuition.
Qed.

Lemma In_new_Set (arr : list string) (y : string) : In y (new_Set arr) <-> In y arr.
Proof. unfold new_Set. rewrite In_new_Set_from. simpl. intuition. Qed.

Lemma In_upto (lo hi i : nat) : In i (upto lo hi) <-> lo <= i < hi.
Proof. unfold upto. rewrite in_seq. lia. Qed.

Lemma In_downto (hi lo i : nat) : In i (downto hi lo) <-> lo < i <= hi.
Proof. unfold downto. rewrite <- in_rev, in_seq. lia. Qed.

(** A property of the accumulator that every turn of a loop keeps holds
    when the loop is left. *)
Lemma loop_invariant {A B} (Inv : A -> Prop) (body : A -> B -> A) (l : list B) (a0 : A) :
  Inv a0 ->
  (forall a b, In b l -> Inv a -> Inv (body a b)) ->
  Inv (fold_left body l a0).
Proof.
  revert a0. induction l as [|b l IH]; intros a0 H0 Hstep; simpl; [exact H0|].
  apply IH.
  - apply Hstep; [now left|exact H0].
  - intros a b' Hb. apply Hstep. now right.
Qed.

Lemma Forall_add (Q : string -> Prop) (set : list string) (x : string) :
  Forall Q set -> Q x -> Forall Q (add set x).
Proof.
  intros Hs Hx. apply Forall_forall. intros y Hy.
  apply In_add in Hy as [Hy| ->]; [|exact Hx].
  revert y Hy. now apply Forall_forall.
Qed.

Lemma Forall_push {A} (Q : A -> Prop) (arr : list A) (x : A) :
  Forall Q arr -> Q x -> Forall Q (push arr x).
Proof. intros Hs Hx. unfold push. apply Forall_app. split; [exact Hs|now constructor]. Qed.

Lemma slice_prefix {A} (arr : list A) (i : nat) :
  slice arr 0 (Z.of_nat i) = firstn i arr.
Proof.
  unfold slice. change (0 <? 0)%Z with false. cbv iota.
  destruct (Z.ltb_spec (Z.of_nat i) 0) as [H|H]; [lia|].
  replace (Z.min 0 (Z.of_nat (List.length arr))) with 0%Z by lia.
  rewrite Z.sub_0_r. change (Z.to_nat 0) with 0. cbn [skipn].
  destruct (Nat.le_gt_cases i (List.length arr)) as [L|L].
  - rewrite Z.min_l by lia. now rewrite Nat2Z.id.
  - rewrite Z.min_r by lia. rewrite Nat2Z.id.
    rewrite !firstn_all2 by lia. reflexivity.
Qed.

Lemma slice_inner {A} (arr : list A) (i : nat) :
  i + 1 <= List.length arr ->
  slice arr (Z.of_nat i + 1) (-1)
  = firstn (List.length arr - 1 - (i + 1)) (skipn (i + 1) arr).
Proof.
  intros L. unfold slice.
  destruct (Z.ltb_spec (Z.of_nat i + 1) 0) as [H|H]; [lia|].
  change (-1 <? 0)%Z with true. cbv iota.
  rewrite Z.min_l by lia.
  replace (Z.to_nat (Z.of_nat i + 1)) with (i + 1) by lia.
  f_equal. lia.
Qed.

End SetsAndLoops.

(** ** The pattern generators *)

Section Generators.

Variable R : string.

Local Abbreviation segs := (split "/" R).
Local Abbreviation n := (List.length (split "/" R)).

(** Whatever holds of each shape holds of every pattern of [pathMapper.ts]. *)
Lemma PathMapper_patterns_ind (Q : string -> Prop) :
  Q R ->
  (forall i, 1 <= i <= n - 1 -> Q (parent_pattern R i)) ->
  (3 <= n -> Q (ends_pattern R)) ->
  (4 <= n -> forall i, 1 <= i < n - 1 -> Q (one_star_pattern R i)) ->
  (4 <= n -> forall i, 1 <= i < n - 2 -> Q (star_and_tail_pattern R i)) ->
  Q "*" ->
  Forall Q (PathMapper.generateResourcePatterns R).
Proof.
  intros HR Hparent Hends Hone Htail Hglobal.
  unfold PathMapper.generateResourcePatterns. cbv zeta.
  apply Forall_add; [|exact Hglobal].
  assert (H1 : Forall Q (add [] R)) by (apply Forall_add; [constructor|exact HR]).
  assert (H2 : Forall Q (fold_left
                           (fun patterns i =>
                              add patterns (join "/" (slice segs 0 (Z.of_nat i)) ++ "/*"))
                           (downto (n - 1) 0) (add [] R))).
  { apply loop_invariant; [exact H1|].
    intros ps i Hi Hps. apply In_downto in Hi.
    apply Forall_add; [exact Hps|]. apply Hparent. lia. }
  match goal with
  | |- Forall Q (if _ then fold_left _ _ ?mid else _) =>
      assert (H3 : Forall Q mid)
  end.
  { destruct (Nat.leb_spec 3 n) as [L3|L3]; [|exact H2].
    assert (H3 : Forall Q (add (fold_left
                           (fun patterns i =>
                              add patterns (join "/" (slice segs 0 (Z.of_nat i)) ++ "/*"))
                           (downto (n - 1) 0) (add [] R)) (ends_pattern R)))
      by (apply Forall_add; [exact H2|now apply Hends]).
    destruct (Nat.ltb_spec 3 n) as [L4|L4]; [|exact H3].
    apply loop_invariant; [exact H3|].
    intros ps i Hi Hps. apply In_upto in Hi. rewrite guarded_add.
    apply Forall_add; [exact Hps|]. apply Hone; lia. }
  destruct (Nat.leb_spec 4 n) as [L4|L4]; [|exact H3].
  apply loop_invariant; [exact H3|].
  intros ps i Hi Hps. apply In_upto in Hi. rewrite guarded_add.
  apply Forall_add; [exact Hps|]. apply Htail; lia.
Qed.

(** Whatever holds of each shape holds of every pattern of [part_000]. *)
Lemma Part000_patterns_ind (Q : string -> Prop) :
  Q R ->
  (forall i, 1 <= i <= n - 1 -> Q (parent_pattern R i)) ->
  (3 <= n -> forall i, 1 <= i < n - 1 -> Q (one_star_pattern R i)) ->
  (4 <= n -> forall i j, 1 <= i < n - 2 -> i + 2 <= j < n -> Q (two_star_pattern R i j)) ->
  Q "*" ->
  Forall Q (Part000.generateResourcePatterns R).
Proof.
  intros HR Hparent Hone Htwo Hglobal.
  unfold Part000.generateResourcePatterns. cbv zeta.
  apply Forall_forall. intros P HP. apply (proj1 (In_new_Set _ _)) in HP.
  revert P HP. apply Forall_forall.
  apply Forall_push; [|exact Hglobal].
  assert (H1 : Forall Q (push [] R)) by (apply Forall_push; [constructor|exact HR]).
  assert (H2 : Forall Q (fold_left
                           (fun patterns i =>
                              push patterns (join "/" (slice segs 0 (Z.of_nat i)) ++ "/*"))
                           (downto (n - 1) 0) (push [] R))).
  { apply loop_invariant; [exact H1|].
    intros ps i Hi Hps. apply In_downto in Hi.
    apply Forall_push; [exact Hps|]. apply Hparent. lia. }
  match goal with
  | |- Forall Q (if _ then fold_left _ _ ?mid else _) =>
      assert (H3 : Forall Q mid)
  end.
  { destruct (Nat.leb_spec 3 n) as [L3|L3]; [|exact H2].
    apply loop_invariant; [exact H2|].
    intros ps i Hi Hps. apply In_upto in Hi.
    apply Forall_push; [exact Hps|]. apply Hone; lia. }
  destruct (Nat.leb_spec 4 n) as [L4|L4]; [|exact H3].
  apply loop_invariant; [exact H3|].
  intros ps i Hi Hps. apply In_upto in Hi.
  apply loop_invariant; [exact Hps|].
  intros ps' j Hj Hps'. apply In_upto in Hj.
  apply Forall_push; [exact Hps'|]. apply Htwo; lia.
Qed.

End Generators.

(** ** The first segment of a generated pattern *)

Section FirstSegment.

Lemma first_segment_join (s0 : string) (rest : list string) :
  count_char "/" s0 = 0 -> first_segment (join "/" (s0 :: rest)) = s0.
Proof.
  intros H. unfold first_segment, segments_of. destruct rest as [|y l].
  - cbn [join String.concat]. now rewrite split_free.
  - rewrite join_cons. change ("/" ++ join "/" (y :: l)) with (String "/" (join "/" (y :: l))).
    now rewrite split_app.
Qed.

Lemma first_segment_join_suffix (s0 t : string) (rest : list string) :
  count_char "/" s0 = 0 ->
  first_segment (join "/" (s0 :: rest) ++ String "/" t) = s0.
Proof.
  intros H. unfold first_segment, segments_of. destruct rest as [|y l].
  - cbn [join String.concat]. now rewrite split_app.
  - rewrite join_cons, append_assoc.
    change ("/" ++ join "/" (y :: l)) with (String "/" (join "/" (y :: l))).
    cbn [append]. now rewrite split_app.
Qed.

Variable R s0 : string.
Variable tl : list string.
Hypothesis Hsegs : split "/" R = s0 :: tl.

Lemma head_free : count_char "/" s0 = 0.
Proof.
  pose proof (split_segments_free "/" R) as F. rewrite Hsegs in F.
  now inversion F.
Qed.

Lemma first_segment_resource : first_segment R = s0.
Proof. unfold first_segment, segments_of. now rewrite Hsegs. Qed.

Lemma first_segment_parent (i : nat) : 1 <= i -> first_segment (parent_pattern R i) = s0.
Proof.
  intros Hi. unfold parent_pattern. rewrite slice_prefix, Hsegs.
  destruct i as [|i]; [lia|]. cbn [firstn].
  apply first_segment_join_suffix, head_free.
Qed.

Lemma first_segment_ends : first_segment (ends_pattern R) = s0.
Proof.
  unfold ends_pattern. rewrite Hsegs. cbn [nth].
  unfold first_segment, segments_of.
  change ("/*/" ++ ?x) with (String "/" ("*/" ++ x)).
  now rewrite split_app by apply head_free.
Qed.

Lemma first_segment_one_star (i : nat) :
  1 <= i -> first_segment (one_star_pattern R i) = s0.
Proof.
  intros Hi. unfold one_star_pattern, mapi. rewrite Hsegs.
  destruct i as [|i]; [lia|]. cbn [mapi_from Nat.eqb].
  apply first_segment_join, head_free.
Qed.

Lemma first_segment_star_and_tail (i : nat) :
  1 <= i -> first_segment (star_and_tail_pattern R i) = s0.
Proof.
  intros Hi. unfold star_and_tail_pattern. rewrite slice_prefix, Hsegs.
  destruct i as [|i]; [lia|]. cbn [firstn]. rewrite <- app_comm_cons.
  apply first_segment_join, head_free.
Qed.

Lemma first_segment_two_star (i j : nat) :
  1 <= i -> 1 <= j -> first_segment (two_star_pattern R i j) = s0.
Proof.
  intros Hi Hj. unfold two_star_pattern, mapi. rewrite Hsegs.
  destruct i as [|i]; [lia|]. destruct j as [|j]; [lia|].
  cbn [mapi_from Nat.eqb orb].
  apply first_segment_join, head_free.
Qed.

End FirstSegment.

Section ForeignRecords.

Import PermissionRepository PermissionService.

Lemma generated_first_segment (R : string) :
  Forall (fun P => P = "*" \/ first_segment P = first_segment R)
    (PathMapper.generateResourcePatterns R)
  /\ Forall (fun P => P = "*" \/ first_segment P = first_segment R)
       (Part000.generateResourcePatterns R).
Proof.
  destruct (split_cons "/" R) as (s0 & tl & E).
  rewrite (first_segment_resource R s0 tl E).
  split.
  - apply PathMapper_patterns_ind; intros; auto; right.
    + now apply first_segment_resource with tl.
    + apply first_segment_parent with tl; [exact E|lia].
    + now apply first_segment_ends with tl.
    + apply first_segment_one_star with tl; [exact E|lia].
    + apply first_segment_star_and_tail with tl; [exact E|lia].
  - apply Part000_patterns_ind; intros; auto; right.
    + now apply first_segment_resource with tl.
    + apply first_segment_parent with tl; [exact E|lia].
    + apply first_segment_one_star with tl; [exact E|lia].
    + apply first_segment_two_star with tl; [exact E|lia|lia].
Qed.

Lemma table_store_skips (t1 t2 : list UserPermission) (row : UserPermission)
    (u : string) (a : PermissionAction) (patterns : list string) :
  where_clause u a patterns row = false ->
  table_store (t1 ++ row :: t2) u a patterns = table_store (t1 ++ t2) u a patterns.
Proof.
  intros H. unfold table_store. rewrite !filter_app. cbn [filter]. now rewrite H.
Qed.

(** C10. Every pattern that either generator produces for [R], the global
    ["*"] apart, starts with the first segment of [R].  A stored row whose
    pattern starts with another segment is therefore not among the queried
    patterns, fails the [WHERE] clause, and may be added to or removed from
    the table without any change to the result of [checkPermission] for
    [R]. *)
Theorem C10_patterns_keep_first_segment (R : string)
    (Hfirst : first_segment R <> "*") :
  (forall P, In P (PathMapper.generateResourcePatterns R) -> P <> "*" ->
             first_segment P = first_segment R)
  /\ (forall P, In P (Part000.generateResourcePatterns R) -> P <> "*" ->
                first_segment P = first_segment R)
  /\ (forall row : UserPermission,
        up_resource row <> "*" ->
        first_segment (up_resource row) <> first_segment R ->
        ~ In (up_resource row) (PathMapper.generateResourcePatterns R)
        /\ ~ In (up_resource row) (Part000.generateResourcePatterns R)
        /\ forall u a,
            where_clause u a (PathMapper.generateResourcePatterns R) row = false
            /\ forall t1 t2,
                checkPermission (table_store (t1 ++ row :: t2)) u a R
                = checkPermission (table_store (t1 ++ t2)) u a R).
Proof.
  destruct (generated_first_segment R) as [HA HB].
  rewrite Forall_forall in HA, HB.
  assert (A : forall P, In P (PathMapper.generateResourcePatterns R) -> P <> "*" ->
                        first_segment P = first_segment R)
    by (intros P HP N; destruct (HA P HP); [contradiction|assumption]).
  assert (B : forall P, In P (Part000.generateResourcePatterns R) -> P <> "*" ->
                        first_segment P = first_segment R)
    by (intros P HP N; destruct (HB P HP); [contradiction|assumption]).
  split; [exact A|]. split; [exact B|].
  intros row Nstar Nfirst.
  assert (NA : ~ In (up_resource row) (PathMapper.generateResourcePatterns R))
    by (intros H; apply Nfirst; now apply A).
  split; [exact NA|]. split; [intros H; apply Nfirst; now apply B|].
  intros u a.
  assert (W : where_clause u a (PathMapper.generateResourcePatterns R) row = false).
  { unfold where_clause.
    destruct (has (PathMapper.generateResourcePatterns R) (up_resource row)) eqn:H.
    - apply has_In in H. contradiction.
    - apply andb_false_r. }
  split; [exact W|]. intros t1 t2.
  unfold checkPermission, findPermissionsWithWildcards.
  now rewrite (table_store_skips t1 t2 row u a _ W).
Qed.

End ForeignRecords.

(** C10 at a wallet and the pattern [wallets/*]. *)
Lemma C10_patterns_keep_first_segment_witness :
  first_segment "wallets/*" = first_segment "wallets/wallet-123".
Proof.
  apply (C10_patterns_keep_first_segment "wallets/wallet-123").
  - discriminate.
  - simpl. auto.
  - discriminate.
Defined.


(** ** The two pattern generators compared *)

Section TwoGenerators.

Lemma In_loop_add {B} (f : B -> string) (l : list B) (ps0 : list string) (y : string) :
  In y (fold_left (fun ps i => add ps (f i)) l ps0)
  <-> In y ps0 \/ exists i, In i l /\ y = f i.
Proof.
  revert ps0. induction l as [|b l IH]; intros ps0; cbn [fold_left].
  - split; [auto|]. intros [H|(i & [] & _)]. exact H.
  - rewrite IH, In_add. split.
    + intros [[H| ->]|(i & Hi & ->)]; eauto.
      * right. exists b. split; [now left|reflexivity].
      * right. exists i. split; [now right|reflexivity].
    + intros [H|(i & [<-|Hi] & ->)]; eauto.
Qed.

Lemma In_loop_guarded_add {B} (f : B -> string) (l : list B) (ps0 : list string) (y : string) :
  In y (fold_left (fun ps i => if negb (has ps (f i)) then add ps (f i) else ps) l ps0)
  <-> In y ps0 \/ exists i, In i l /\ y = f i.
Proof.
  rewrite <- In_loop_add. revert ps0.
  induction l as [|b l IH]; intros ps0; cbn [fold_left]; [reflexivity|].
  rewrite guarded_add. apply IH.
Qed.

Lemma In_loop_push {B} (f : B -> string) (l : list B) (ps0 : list string) (y : string) :
  In y (fold_left (fun ps i => push ps (f i)) l ps0)
  <-> In y ps0 \/ exists i, In i l /\ y = f i.
Proof.
  revert ps0. induction l as [|b l IH]; intros ps0; cbn [fold_left].
  - split; [auto|]. intros [H|(i & [] & _)]. exact H.
  - rewrite IH, In_push. split.
    + intros [[H| ->]|(i & Hi & ->)]; eauto.
      * right. exists b. split; [now left|reflexivity].
      * right. exists i. split; [now right|reflexivity].
    + intros [H|(i & [<-|Hi] & ->)]; eauto.
Qed.

Lemma In_nested_loop_push {B C} (f : B -> C -> string) (inner : B -> list C)
    (l : list B) (ps0 : list string) (y : string) :
  In y (fold_left (fun ps i => fold_left (fun ps j => push ps (f i j)) (inner i) ps) l ps0)
  <-> In y ps0 \/ exists i j, In i l /\ In j (inner i) /\ y = f i j.
Proof.
  revert ps0. induction l as [|b l IH]; intros ps0; cbn [fold_left].
  - split; [auto|]. intros [H|(i & j & [] & _)]. exact H.
  - rewrite IH, In_loop_push. split.
    + intros [[H|(j & Hj & ->)]|(i & j & Hi & Hj & ->)]; eauto.
      * right. exists b, j. repeat split; auto. now left.
      * right. exists i, j. repeat split; auto. now right.
    + intros [H|(i & j & [<-|Hi] & Hj & ->)]; eauto 7.
Qed.

Ltac bounds :=
  repeat match goal with
    | H : In _ (upto _ _) |- _ => apply In_upto in H
    | H : In _ (downto _ _) |- _ => apply In_downto in H
    end.

Ltac finish :=
  first [ reflexivity | assumption | lia
        | apply In_upto; lia | apply In_downto; lia
        | split; [lia|]; finish
        | eexists; split; [|reflexivity]; finish
        | eexists; eexists; split; [|split; [|reflexivity]]; finish ].

Ltac shape := bounds; first [ finish | left; shape | right; shape ].

Lemma PathMapper_patterns_iff (R P : string) :
  In P (PathMapper.generateResourcePatterns R) <-> pathMapper_shape R P.
Proof.
  unfold PathMapper.generateResourcePatterns, pathMapper_shape, segment_count.
  cbv zeta.
  fold (ends_pattern R).
  set (n := List.length (split "/" R)).
  rewrite In_add.
  assert (Hparents :
    forall y, In y (fold_left
                      (fun patterns i =>
                         add patterns (join "/" (slice (split "/" R) 0 (Z.of_nat i)) ++ "/*"))
                      (downto (n - 1) 0) (add [] R))
              <-> y = R \/ exists i, 1 <= i <= n - 1 /\ y = parent_pattern R i).
  { intros y. rewrite (In_loop_add (parent_pattern R)), In_add. simpl.
    split.
    - intros [[[]| ->]|(i & Hi & ->)]; shape.
    - intros [->|(i & Hi & ->)]; shape. }
  destruct (Nat.leb_spec 3 n) as [L3|L3].
  - destruct (Nat.ltb_spec 3 n) as [L4|L4].
    + destruct (Nat.leb_spec 4 n) as [L4'|L4']; [|lia].
      rewrite (In_loop_guarded_add (star_and_tail_pattern R)).
      rewrite (In_loop_guarded_add (one_star_pattern R)).
      rewrite In_add, Hparents.
      split.
      * intros [[[[[->|(i & Hi & ->)]| ->]|(i & Hi & ->)]|(i & Hi & ->)]| ->]; shape.
      * intros [->|[(i & Hi & ->)|[[_ ->]|[(_ & i & Hi & ->)|[(_ & i & Hi & ->)| ->]]]]]; shape.
    + destruct (Nat.leb_spec 4 n) as [L4'|L4']; [lia|].
      rewrite In_add, Hparents.
      split.
      * intros [[[->|(i & Hi & ->)]| ->]| ->]; shape.
      * intros [->|[(i & Hi & ->)|[[_ ->]|[(? & _)|[(? & _)| ->]]]]]; try lia; shape.
  - destruct (Nat.leb_spec 4 n) as [L4'|L4']; [lia|].
    rewrite Hparents.
    split.
    + intros [[->|(i & Hi & ->)]| ->]; shape.
    + intros [->|[(i & Hi & ->)|[[? _]|[(? & _)|[(? & _)| ->]]]]]; try lia; shape.
Qed.

Lemma Part000_patterns_iff (R P : string) :
  In P (Part000.generateResourcePatterns R) <-> part000_shape R P.
Proof.
  unfold Part000.generateResourcePatterns, part000_shape, segment_count.
  cbv zeta.
  set (n := List.length (split "/" R)).
  rewrite In_new_Set, In_push.
  assert (Hparents :
    forall y, In y (fold_left
                      (fun patterns i =>
                         push patterns (join "/" (slice (split "/" R) 0 (Z.of_nat i)) ++ "/*"))
                      (downto (n - 1) 0) (push [] R))
              <-> y = R \/ exists i, 1 <= i <= n - 1 /\ y = parent_pattern R i).
  { intros y. rewrite (In_loop_push (parent_pattern R)), In_push. simpl.
    split.
    - intros [[[]| ->]|(i & Hi & ->)]; shape.
    - intros [->|(i & Hi & ->)]; shape. }
  destruct (Nat.leb_spec 3 n) as [L3|L3].
  - destruct (Nat.leb_spec 4 n) as [L4|L4].
    + rewrite (In_nested_loop_push (two_star_pattern R) (fun i => upto (i + 2) n)).
      rewrite (In_loop_push (one_star_pattern R)), Hparents.
      split.
      * intros [[[[->|(i & Hi & ->)]|(i & Hi & ->)]|(i & j & Hi & Hj & ->)]| ->]; shape.
      * intros [->|[(i & Hi & ->)|[(_ & i & Hi & ->)|[(_ & i & j & Hi & Hj & ->)| ->]]]]; shape.
    + rewrite (In_loop_push (one_star_pattern R)), Hparents.
      split.
      * intros [[[->|(i & Hi & ->)]|(i & Hi & ->)]| ->]; shape.
      * intros [->|[(i & Hi & ->)|[(_ & i & Hi & ->)|[(? & _)| ->]]]]; try lia; shape.
  - destruct (Nat.leb_spec 4 n) as [L4|L4]; [lia|].
    rewrite Hparents.
    split.
    + intros [[->|(i & Hi & ->)]| ->]; shape.
    + intros [->|[(i & Hi & ->)|[(? & _)|[(? & _)| ->]]]]; try lia; shape.
Qed.

Lemma mapi_from_app {A B} (f : A -> nat -> B) (l1 l2 : list A) (k : nat) :
  mapi_from k f (l1 ++ l2)%list
  = (mapi_from k f l1 ++ mapi_from (k + List.length l1) f l2)%list.
Proof.
  revert k. induction l1 as [|x l1 IH]; intros k; simpl.
  - now rewrite Nat.add_0_r.
  - rewrite IH. do 3 f_equal. lia.
Qed.

Lemma mapi_from_same {A} (f : A -> nat -> A) (l : list A) (k : nat) :
  (forall x idx, k <= idx < k + List.length l -> f x idx = x) ->
  mapi_from k f l = l.
Proof.
  revert k. induction l as [|x l IH]; intros k H; simpl; [reflexivity|].
  rewrite (H x k) by (simpl; lia). f_equal. apply IH.
  intros y idx Hidx. apply H. simpl. lia.
Qed.

Lemma cut_around {A} (l : list A) (i : nat) :
  i + 2 <= List.length l ->
  exists l1 x l2 y, l = (l1 ++ x :: l2 ++ [y])%list /\ List.length l1 = i.
Proof.
  intros L.
  assert (L1 : List.length (firstn i l) = i) by (rewrite length_firstn; lia).
  pose proof (length_skipn i l) as L2.
  pose proof (firstn_skipn i l) as E0.
  destruct (skipn i l) as [|x r]; simpl in L2; [lia|].
  assert (Hr : r <> []) by (intros ->; simpl in L2; lia).
  destruct (exists_last Hr) as (l2 & y & ->).
  exists (firstn i l), x, l2, y. split; [now symmetry|exact L1].
Qed.

Lemma star_and_tail_list (l1 l2 : list string) (x y : string) :
  let l := (l1 ++ x :: l2 ++ [y])%list in
  let i := List.length l1 in
  (slice l 0 (Z.of_nat i) ++ ["*"] ++ slice l (Z.of_nat i + 1) (-1) ++ ["*"])%list
  = mapi (fun seg idx => if ((idx =? i) || (idx =? List.length l - 1))%nat then "*" else seg) l.
Proof.
  intros l i.
  assert (Ln : List.length l = i + 2 + List.length l2)
    by (unfold l, i; rewrite length_app; simpl; rewrite length_app; simpl; lia).
  rewrite slice_prefix, slice_inner by lia.
  assert (E1 : firstn i l = l1).
  { unfold l, i. rewrite firstn_app, firstn_all, Nat.sub_diag. cbn [firstn].
    apply app_nil_r. }
  assert (E2 : skipn (i + 1) l = (l2 ++ [y])%list).
  { unfold l. replace (l1 ++ x :: l2 ++ [y])%list with ((l1 ++ [x]) ++ (l2 ++ [y]))%list
      by (rewrite <- app_assoc; reflexivity).
    replace (i + 1) with (List.length (l1 ++ [x])%list)
      by (rewrite length_app; reflexivity).
    rewrite skipn_app, skipn_all, Nat.sub_diag. reflexivity. }
  assert (E3 : firstn (List.length l - 1 - (i + 1)) (l2 ++ [y])%list = l2).
  { replace (List.length l - 1 - (i + 1)) with (List.length l2) by lia.
    rewrite firstn_app, firstn_all, Nat.sub_diag. cbn [firstn]. apply app_nil_r. }
  rewrite E1, E2, E3.
  set (f := fun (seg : string) idx =>
              if ((idx =? i) || (idx =? List.length l - 1))%nat then "*" else seg).
  assert (Fi : forall s, f s i = "*") by (intros s; unfold f; now rewrite Nat.eqb_refl).
  assert (Fn : forall s, f s (List.length l - 1) = "*")
    by (intros s; unfold f; now rewrite Nat.eqb_refl, orb_true_r).
  assert (Fo : forall s idx, idx <> i -> idx <> List.length l - 1 -> f s idx = s).
  { intros s idx N1 N2. unfold f.
    destruct (Nat.eqb_spec idx i); [contradiction|].
    destruct (Nat.eqb_spec idx (List.length l - 1)); [contradiction|reflexivity]. }
  clearbody f. unfold mapi. unfold l at 1.
  rewrite mapi_from_app. cbn [mapi_from Nat.add]. rewrite mapi_from_app. cbn [mapi_from].
  fold i. rewrite Fi.
  replace (S i + List.length l2) with (List.length l - 1) by lia. rewrite Fn.
  rewrite (mapi_from_same f l1) by (intros s idx Hidx; apply Fo; fold i in Hidx; lia).
  rewrite (mapi_from_same f l2) by (intros s idx Hidx; apply Fo; lia).
  reflexivity.
Qed.

Lemma star_and_tail_is_two_star (R : string) (i : nat) :
  1 <= i < segment_count R - 2 ->
  star_and_tail_pattern R i = two_star_pattern R i (segment_count R - 1).
Proof.
  intros Hi. unfold star_and_tail_pattern, two_star_pattern, segment_count in *.
  destruct (cut_around (split "/" R) i) as (l1 & x & l2 & y & E & L); [lia|].
  rewrite E, <- L. f_equal. apply star_and_tail_list.
Qed.

Lemma one_star_is_ends (R : string) :
  segment_count R = 3 -> one_star_pattern R 1 = ends_pattern R.
Proof.
  unfold segment_count, one_star_pattern, ends_pattern.
  destruct (split "/" R) as [|a [|b [|c [|d l]]]]; try discriminate.
  reflexivity.
Qed.

Lemma pathMapper_shape_in_part000 (R P : string) :
  pathMapper_shape R P ->
  part000_shape R P \/ (4 <= segment_count R /\ P = ends_pattern R).
Proof.
  unfold pathMapper_shape, part000_shape.
  intros [->|[(i & Hi & ->)|[[L ->]|[(L & i & Hi & ->)|[(L & i & Hi & ->)| ->]]]]].
  - shape.
  - shape.
  - destruct (Nat.eq_dec (segment_count R) 3) as [E|N]; [|right; split; [lia|reflexivity]].
    left. rewrite <- (one_star_is_ends R E). shape.
  - shape.
  - left. rewrite star_and_tail_is_two_star by lia. shape.
  - shape.
Qed.

Lemma part000_shape_in_pathMapper (R P : string) :
  part000_shape R P ->
  pathMapper_shape R P
  \/ exists i j, 1 <= i < segment_count R - 2 /\ i + 2 <= j < segment_count R - 1
                 /\ P = two_star_pattern R i j.
Proof.
  unfold pathMapper_shape, part000_shape.
  intros [->|[(i & Hi & ->)|[(L & i & Hi & ->)|[(L & i & j & Hi & Hj & ->)| ->]]]].
  - shape.
  - shape.
  - destruct (Nat.eq_dec (segment_count R) 3) as [E|N]; [|shape].
    replace i with 1 by lia. rewrite (one_star_is_ends R E). shape.
  - destruct (Nat.eq_dec j (segment_count R - 1)) as [->|N].
    + left. rewrite <- star_and_tail_is_two_star by lia. shape.
    + right. exists i, j. repeat split; lia.
  - shape.
Qed.

Lemma short_resources_agree (R : string) :
  segment_count R <= 3 ->
  PathMapper.generateResourcePatterns R = Part000.generateResourcePatterns R.
Proof.
  unfold segment_count. intros L.
  unfold PathMapper.generateResourcePatterns, Part000.generateResourcePatterns.
  cbv zeta.
  destruct (split "/" R) as [|a [|b [|c [|d l]]]]; simpl in L; try lia; reflexivity.
Qed.

(** C6 (amended). On a resource of at most three segments the two
    generators return the same list.  On every resource, a pattern of
    [pathMapper.ts] is a pattern of [part_000] unless it is the pattern
    first[/*/]last of a resource with four or more segments, and a pattern
    of [part_000] is a pattern of [pathMapper.ts] unless it carries two
    wildcards of which the second is not in the last position. *)
Theorem C6_generators_agree_up_to_two_shapes (R : string) :
  (segment_count R <= 3 ->
   PathMapper.generateResourcePatterns R = Part000.generateResourcePatterns R)
  /\ (forall P, In P (PathMapper.generateResourcePatterns R) ->
                In P (Part000.generateResourcePatterns R)
                \/ (4 <= segment_count R /\ P = ends_pattern R))
  /\ (forall P, In P (Part000.generateResourcePatterns R) ->
                In P (PathMapper.generateResourcePatterns R)
                \/ exists i j, 1 <= i < segment_count R - 2
                               /\ i + 2 <= j < segment_count R - 1
                               /\ P = two_star_pattern R i j).
Proof.
  split; [apply short_resources_agree|]. split; intros P HP.
  - rewrite Part000_patterns_iff. apply pathMapper_shape_in_part000.
    now apply PathMapper_patterns_iff.
  - rewrite PathMapper_patterns_iff. apply part000_shape_in_pathMapper.
    now apply Part000_patterns_iff.
Qed.

End TwoGenerators.

(** C6 at a resource of three segments. *)
Lemma C6_generators_agree_up_to_two_shapes_witness :
  segment_count "a/b/c" <= 3
  /\ PathMapper.generateResourcePatterns "a/b/c" = Part000.generateResourcePatterns "a/b/c".
Proof.
  assert (L : segment_count "a/b/c" <= 3) by (cbv; lia).
  split; [exact L|].
  exact (proj1 (C6_generators_agree_up_to_two_shapes "a/b/c") L).
Defined.

(** C6 as stated fails: for [a/b/c/d] only [pathMapper.ts] produces
    [a/*/d]. *)
Lemma C6_generators_differ_on_four_segments :
  ~ (forall P, In P (PathMapper.generateResourcePatterns "a/b/c/d")
               <-> In P (Part000.generateResourcePatterns "a/b/c/d")).
Proof.
  intros H. destruct (H "a/*/d") as [H1 _].
  rewrite pm_abcd, p0_abcd in H1.
  assert (HA : In "a/*/d"
                 ["a/b/c/d"; "a/b/c/*"; "a/b/*"; "a/*"; "a/*/d"; "a/*/c/d";
                  "a/b/*/d"; "a/*/c/*"; "*"]) by (simpl; tauto).
  specialize (H1 HA). simpl in H1.
  repeat (destruct H1 as [H1|H1]; [discriminate H1|]). exact H1.
Qed.


(** * Further properties of the code *)

(** ** The pattern generators as sets built in order *)

Section GeneratorNormalForm.

Lemma loop_add_map {B} (f : B -> string) (l : list B) (ps0 : list string) :
  fold_left (fun ps i => add ps (f i)) l ps0 = fold_left add (map f l) ps0.
Proof. revert ps0. induction l as [|b l IH]; intros ps0; simpl; [reflexivity|apply IH]. Qed.

Lemma loop_guarded_add_map {B} (f : B -> string) (l : list B) (ps0 : list string) :
  fold_left (fun ps i => if negb (has ps (f i)) then add ps (f i) else ps) l ps0
  = fold_left add (map f l) ps0.
Proof.
  revert ps0. induction l as [|b l IH]; intros ps0; simpl; [reflexivity|].
  rewrite guarded_add. apply IH.
Qed.

Lemma loop_push_map {B} (f : B -> string) (l : list B) (ps0 : list string) :
  fold_left (fun ps i => push ps (f i)) l ps0 = (ps0 ++ map f l)%list.
Proof.
  revert ps0. induction l as [|b l IH]; intros ps0; simpl.
  - now rewrite app_nil_r.
  - rewrite IH. unfold push. now rewrite <- app_assoc.
Qed.

Lemma nested_loop_push_map {B C} (f : B -> C -> string) (inner : B -> list C)
    (l : list B) (ps0 : list string) :
  fold_left (fun ps i => fold_left (fun ps j => push ps (f i j)) (inner i) ps) l ps0
  = (ps0 ++ flat_map (fun i => map (f i) (inner i)) l)%list.
Proof.
  revert ps0. induction l as [|b l IH]; intros ps0; simpl.
  - now rewrite app_nil_r.
  - rewrite IH, loop_push_map. now rewrite <- app_assoc.
Qed.

Lemma PathMapper_normal_form (R : string) :
  PathMapper.generateResourcePatterns R
  = new_Set ([R] ++ pathMapper_middle R ++ ["*"])%list.
Proof.
  unfold PathMapper.generateResourcePatterns, pathMapper_middle, new_Set, segment_count.
  cbv zeta. fold (ends_pattern R).
  set (n := List.length (split "/" R)).
  rewrite !fold_left_app. cbn [fold_left].
  rewrite (loop_add_map (parent_pattern R)).
  f_equal.
  destruct (3 <=? n)%nat, (3 <? n)%nat, (4 <=? n)%nat; cbn [fold_left map];
    rewrite ?(loop_guarded_add_map (one_star_pattern R)),
            ?(loop_guarded_add_map (star_and_tail_pattern R)); reflexivity.
Qed.

Lemma Part000_normal_form (R : string) :
  Part000.generateResourcePatterns R
  = new_Set ([R] ++ part000_middle R ++ ["*"])%list.
Proof.
  unfold Part000.generateResourcePatterns, part000_middle, segment_count.
  cbv zeta. f_equal.
  set (n := List.length (split "/" R)).
  rewrite (loop_push_map (parent_pattern R)).
  unfold push at 1. rewrite <- !app_assoc. cbn [app]. f_equal.
  destruct (3 <=? n)%nat, (4 <=? n)%nat;
    rewrite ?(nested_loop_push_map (two_star_pattern R) (fun i => upto (i + 2) n)),
            ?(loop_push_map (one_star_pattern R));
    unfold push; rewrite <- ?app_assoc, ?app_nil_r; reflexivity.
Qed.

End GeneratorNormalForm.

Section GeneratedSets.

Lemma NoDup_add (set : list string) (x : string) : NoDup set -> NoDup (add set x).
Proof.
  intros H. unfold add. destruct (has set x) eqn:E; [exact H|].
  unfold push. apply NoDup_app; [exact H|constructor; [simpl; tauto|constructor]|].
  intros y Hy [<-|[]]. apply has_In in Hy. congruence.
Qed.

Lemma NoDup_new_Set (arr : list string) : NoDup (new_Set arr).
Proof.
  unfold new_Set. apply loop_invariant; [constructor|].
  intros set x _. apply NoDup_add.
Qed.

Lemma add_extends (set : list string) (x : string) :
  exists more, add set x = (set ++ more)%list /\ List.length more <= 1.
Proof.
  unfold add, push. destruct (has set x).
  - exists []. rewrite app_nil_r. split; [reflexivity|simpl; lia].
  - exists [x]. split; [reflexivity|simpl; lia].
Qed.

Lemma new_Set_from_extends (arr acc : list string) :
  exists more, fold_left add arr acc = (acc ++ more)%list
               /\ List.length more <= List.length arr.
Proof.
  revert acc. induction arr as [|x arr IH]; intros acc; simpl.
  - exists []. rewrite app_nil_r. split; [reflexivity|simpl; lia].
  - destruct (add_extends acc x) as (m1 & E1 & L1).
    destruct (IH (add acc x)) as (m2 & E2 & L2).
    exists (m1 ++ m2)%list. rewrite E2, E1, <- app_assoc, length_app. split; [reflexivity|lia].
Qed.

Lemma new_Set_head (x : string) (arr : list string) : hd "" (new_Set (x :: arr)) = x.
Proof.
  unfold new_Set. cbn [fold_left]. change (add [] x) with [x].
  destruct (new_Set_from_extends arr [x]) as (more & -> & _). reflexivity.
Qed.

Lemma new_Set_length (arr : list string) : List.length (new_Set arr) <= List.length arr.
Proof.
  destruct (new_Set_from_extends arr []) as (more & E & L).
  unfold new_Set. rewrite E. simpl. exact L.
Qed.

Lemma add_fresh (set : list string) (x : string) :
  ~ In x set -> add set x = (set ++ [x])%list.
Proof.
  intros N. unfold add, push. destruct (has set x) eqn:E; [|reflexivity].
  apply has_In in E. contradiction.
Qed.

Lemma new_Set_last (arr : list string) (x : string) :
  ~ In x arr -> last (new_Set (arr ++ [x])) "" = x.
Proof.
  intros N. unfold new_Set. rewrite fold_left_app. cbn [fold_left].
  rewrite add_fresh; [apply last_last|].
  intros H. apply N. now apply (proj1 (In_new_Set arr x)).
Qed.

Lemma join_has_separator (l : list string) :
  2 <= List.length l -> 1 <= count_char "/" (join "/" l).
Proof.
  destruct l as [|a [|b r]]; simpl; try lia. intros _.
  change (String.concat "/" (a :: b :: r)) with (a ++ "/" ++ join "/" (b :: r)).
  rewrite count_char_app. simpl. lia.
Qed.

Lemma mapi_from_length {A B} (f : A -> nat -> B) (l : list A) (k : nat) :
  List.length (mapi_from k f l) = List.length l.
Proof. revert k. induction l as [|x l IH]; intros k; simpl; [reflexivity|now rewrite IH]. Qed.

Lemma parent_has_separator (R : string) (i : nat) : 1 <= count_char "/" (parent_pattern R i).
Proof. unfold parent_pattern. rewrite count_char_app. simpl. lia. Qed.

Lemma ends_has_separator (R : string) : 1 <= count_char "/" (ends_pattern R).
Proof. unfold ends_pattern. rewrite !count_char_app. simpl. lia. Qed.

Lemma one_star_has_separator (R : string) (i : nat) :
  2 <= segment_count R -> 1 <= count_char "/" (one_star_pattern R i).
Proof.
  intros L. apply join_has_separator. unfold mapi. now rewrite mapi_from_length.
Qed.

Lemma two_star_has_separator (R : string) (i j : nat) :
  2 <= segment_count R -> 1 <= count_char "/" (two_star_pattern R i j).
Proof.
  intros L. apply join_has_separator. unfold mapi. now rewrite mapi_from_length.
Qed.

Lemma star_and_tail_has_separator (R : string) (i : nat) :
  1 <= count_char "/" (star_and_tail_pattern R i).
Proof.
  apply join_has_separator. rewrite !length_app. simpl. lia.
Qed.

Lemma pathMapper_middle_separated (R : string) :
  Forall (fun P => 1 <= count_char "/" P) (pathMapper_middle R).
Proof.
  unfold pathMapper_middle. cbv zeta. rewrite !Forall_app. repeat split.
  - apply Forall_forall. intros P HP. apply in_map_iff in HP as (i & <- & _).
    apply parent_has_separator.
  - destruct (Nat.leb_spec 3 (segment_count R)); [|constructor].
    constructor; [apply ends_has_separator|].
    destruct (3 <? segment_count R)%nat; [|constructor].
    apply Forall_forall. intros P HP. apply in_map_iff in HP as (i & <- & _).
    apply one_star_has_separator. lia.
  - destruct (4 <=? segment_count R)%nat; [|constructor].
    apply Forall_forall. intros P HP. apply in_map_iff in HP as (i & <- & _).
    apply star_and_tail_has_separator.
Qed.

Lemma part000_middle_separated (R : string) :
  Forall (fun P => 1 <= count_char "/" P) (part000_middle R).
Proof.
  unfold part000_middle. cbv zeta. rewrite !Forall_app. repeat split.
  - apply Forall_forall. intros P HP. apply in_map_iff in HP as (i & <- & _).
    apply parent_has_separator.
  - destruct (Nat.leb_spec 3 (segment_count R)); [|constructor].
    apply Forall_forall. intros P HP. apply in_map_iff in HP as (i & <- & _).
    apply one_star_has_separator. lia.
  - destruct (Nat.leb_spec 4 (segment_count R)); [|constructor].
    apply Forall_forall. intros P HP. apply in_flat_map in HP as (i & _ & HP).
    apply in_map_iff in HP as (j & <- & _). apply two_star_has_separator. lia.
Qed.

Lemma ends_of_new_Set (R : string) (middle : list string) :
  R <> "*" ->
  Forall (fun P => 1 <= count_char "/" P) middle ->
  let patterns := new_Set ([R] ++ middle ++ ["*"])%list in
  hd "" patterns = R /\ last patterns "" = "*" /\ In R patterns /\ In "*" patterns.
Proof.
  intros N F patterns. subst patterns. split; [apply new_Set_head|].
  split; [|split; apply In_new_Set; rewrite !in_app_iff; simpl; tauto].
  rewrite app_assoc. apply new_Set_last.
  intros H. apply in_app_iff in H as [[H|[]]|H]; [congruence|].
  rewrite Forall_forall in F. specialize (F _ H). simpl in F. lia.
Qed.

(** X1. Each generator returns the insertion-ordered set of one explicit
    sequence: the resource, then the trailing-wildcard patterns from the
    longest prefix down, then the middle-wildcard patterns of that copy, then
    ["*"]. *)
Theorem X1_generators_normal_form (R : string) :
  PathMapper.generateResourcePatterns R
  = new_Set ([R] ++ pathMapper_middle R ++ ["*"])%list
  /\ Part000.generateResourcePatterns R
     = new_Set ([R] ++ part000_middle R ++ ["*"])%list.
Proof. split; [apply PathMapper_normal_form|apply Part000_normal_form]. Qed.

(** X2. For every resource, the list either generator returns starts with
    the resource itself and ends with ["*"]. *)
Theorem X2_generated_first_and_last (R : string) :
  (hd "" (PathMapper.generateResourcePatterns R) = R
   /\ last (PathMapper.generateResourcePatterns R) "" = "*"
   /\ In R (PathMapper.generateResourcePatterns R)
   /\ In "*" (PathMapper.generateResourcePatterns R))
  /\ (hd "" (Part000.generateResourcePatterns R) = R
      /\ last (Part000.generateResourcePatterns R) "" = "*"
      /\ In R (Part000.generateResourcePatterns R)
      /\ In "*" (Part000.generateResourcePatterns R)).
Proof.
  destruct (string_dec R "*") as [->|N].
  - rewrite patterns_of_global, part000_patterns_of_global. simpl. tauto.
  - rewrite PathMapper_normal_form, Part000_normal_form. split.
    + apply (ends_of_new_Set R (pathMapper_middle R) N), pathMapper_middle_separated.
    + apply (ends_of_new_Set R (part000_middle R) N), part000_middle_separated.
Qed.

(** X3. Neither generator returns a pattern twice. *)
Theorem X3_generated_without_duplicates (R : string) :
  NoDup (PathMapper.generateResourcePatterns R)
  /\ NoDup (Part000.generateResourcePatterns R).
Proof.
  rewrite PathMapper_normal_form, Part000_normal_form.
  split; apply NoDup_new_Set.
Qed.

Lemma upto_length (lo hi : nat) : List.length (upto lo hi) = hi - lo.
Proof. unfold upto. apply length_seq. Qed.

Lemma downto_length (hi lo : nat) : List.length (downto hi lo) = hi - lo.
Proof. unfold downto. now rewrite length_rev, length_seq. Qed.

(** X4. The generator of [pathMapper.ts] returns at most three patterns per
    segment of the resource, so the [IN] list of the query grows linearly. *)
Theorem X4_pattern_count_is_linear (R : string) :
  List.length (PathMapper.generateResourcePatterns R) <= 3 * segment_count R.
Proof.
  rewrite PathMapper_normal_form.
  etransitivity; [apply new_Set_length|].
  pose proof (split_length_pos "/" R) as Hn. fold (segment_count R) in Hn.
  unfold pathMapper_middle. cbv zeta.
  rewrite !length_app, length_map, downto_length. cbn [List.length].
  destruct (Nat.leb_spec 3 (segment_count R)) as [L3|L3];
    destruct (Nat.ltb_spec 3 (segment_count R)) as [L3'|L3'];
    destruct (Nat.leb_spec 4 (segment_count R)) as [L4|L4];
    cbn [List.length]; rewrite ?length_map, ?upto_length; lia.
Qed.

(** X5. A resource without a slash, other than ["*"], yields exactly the
    resource and ["*"], from either generator. *)
Theorem X5_single_segment_patterns (R : string)
    (Hone : count_char "/" R = 0) (Hplain : R <> "*") :
  PathMapper.generateResourcePatterns R = [R; "*"]
  /\ Part000.generateResourcePatterns R = [R; "*"].
Proof.
  assert (E : ("*" =? R) = false) by (apply String.eqb_neq; congruence).
  unfold PathMapper.generateResourcePatterns, Part000.generateResourcePatterns.
  cbv zeta. rewrite (split_free "/" R Hone).
  cbn [List.length Nat.sub downto upto seq rev fold_left Nat.leb Nat.ltb app].
  unfold new_Set, push. cbn [fold_left app].
  unfold add, has, push. cbn [existsb app]. rewrite E. split; reflexivity.
Qed.

End GeneratedSets.

(** X5 at a one-segment resource. *)
Lemma X5_single_segment_patterns_witness :
  PathMapper.generateResourcePatterns "wallets" = ["wallets"; "*"].
Proof.
  apply (X5_single_segment_patterns "wallets"); [reflexivity|discriminate].
Defined.

(** ** What path normalisation returns and what it ignores *)

Section NormalisedPaths.

Import PathMapper.

Local Abbreviation chars := list_ascii_of_string.

Lemma spec_mapResource_stripped (p : string) :
  spec_mapResource p
  = match stripped (chars p) with
    | [] => "*"
    | l => string_of_list_ascii l
    end.
Proof.
  unfold spec_mapResource, stripped. cbv zeta.
  now destruct (rev (dropWhile is_slash (rev _))).
Qed.

Lemma chars_app (a b : string) : chars (a ++ b) = (chars a ++ chars b)%list.
Proof. induction a as [|c a IH]; simpl; [reflexivity|now rewrite IH]. Qed.

Lemma dropWhile_head {A} (f : A -> bool) (l : list A) (x : A) (r : list A) :
  dropWhile f l = x :: r -> f x = false.
Proof.
  induction l as [|y l IH]; simpl; [discriminate|].
  destruct (f y) eqn:E; [exact IH|]. now intros [= <- _].
Qed.

Lemma takeWhile_head {A} (f : A -> bool) (l : list A) (x : A) (r : list A) :
  takeWhile f l = x :: r -> exists r', l = x :: r'.
Proof.
  destruct l as [|y l]; simpl; [discriminate|].
  destruct (f y); [|discriminate]. intros [= <- _]. eauto.
Qed.

Lemma takeWhile_forallb {A} (f : A -> bool) (l : list A) :
  forallb f (takeWhile f l) = true.
Proof.
  induction l as [|y l IH]; simpl; [reflexivity|].
  destruct (f y) eqn:E; simpl; [now rewrite E|reflexivity].
Qed.

Lemma takeWhile_dropWhile {A} (f : A -> bool) (l : list A) :
  (takeWhile f l ++ dropWhile f l)%list = l.
Proof.
  induction l as [|y l IH]; simpl; [reflexivity|].
  destruct (f y); simpl; [now rewrite IH|reflexivity].
Qed.

Lemma stripped_clean (cs : list ascii) (c : ascii) (l : list ascii) :
  stripped cs = c :: l ->
  is_slash c = false
  /\ (exists d r, rev (c :: l) = d :: r /\ is_slash d = false)
  /\ forallb not_question (c :: l) = true.
Proof.
  unfold stripped.
  set (m := takeWhile not_question (dropWhile is_slash cs)).
  intros E.
  assert (Hm : m = ((c :: l) ++ rev (takeWhile is_slash (rev m)))%list).
  { rewrite <- E, <- rev_app_distr, takeWhile_dropWhile. now rewrite rev_involutive. }
  split; [|split].
  - cbn [app] in Hm. unfold m in Hm.
    destruct (takeWhile_head _ _ _ _ Hm) as (r' & Hd).
    exact (dropWhile_head _ _ _ _ Hd).
  - assert (R : rev (c :: l) = dropWhile is_slash (rev m))
      by (rewrite <- E; now rewrite rev_involutive).
    destruct (rev (c :: l)) as [|d r] eqn:Er.
    + apply (f_equal (@rev ascii)) in Er. rewrite rev_involutive in Er. discriminate.
    + exists d, r. split; [reflexivity|]. symmetry in R. exact (dropWhile_head _ _ _ _ R).
  - pose proof (takeWhile_forallb not_question (dropWhile is_slash cs)) as F.
    fold m in F. rewrite Hm, forallb_app in F. now apply andb_true_iff in F.
Qed.

Lemma mapPathToResource_clean (p : string) :
  already_clean (mapPathToResource p) = true.
Proof.
  rewrite mapPathToResource_refines, spec_mapResource_stripped.
  destruct (stripped (chars p)) as [|c l] eqn:E; [reflexivity|].
  destruct (stripped_clean _ _ _ E) as (Hc & (d & r & Hr & Hd) & Hq).
  unfold already_clean. rewrite list_ascii_of_string_of_list_ascii, Hr, Hc, Hd, Hq.
  reflexivity.
Qed.

(** X6. The resource that [mapPathToResource] returns is never empty, holds
    no question mark and neither starts nor ends with a slash; normalising
    it again returns it unchanged. *)
Theorem X6_normalised_path_is_clean (p : string) :
  already_clean (mapPathToResource p) = true
  /\ mapPathToResource p <> ""
  /\ count_char "?" (mapPathToResource p) = 0
  /\ mapPathToResource (mapPathToResource p) = mapPathToResource p.
Proof.
  pose proof (mapPathToResource_clean p) as C.
  split; [exact C|]. split; [|split].
  - intros E. rewrite E in C. discriminate.
  - unfold already_clean in C.
    destruct (chars (mapPathToResource p)) as [|c l] eqn:E; [discriminate|].
    destruct (rev (c :: l)); [discriminate|].
    apply andb_true_iff in C as [_ C].
    rewrite <- (string_of_list_ascii_of_string (mapPathToResource p)), E.
    clear E. revert C. generalize (c :: l). intros cs.
    induction cs as [|x cs IH]; simpl; [reflexivity|].
    unfold not_question at 1. intros H. apply andb_true_iff in H as [Hx H].
    apply negb_true_iff in Hx. rewrite Hx. simpl. now apply IH.
  - rewrite (mapPathToResource_refines (mapPathToResource p)).
    now apply spec_mapResource_clean.
Qed.

Lemma dropWhile_stop {A} (f : A -> bool) (l r : list A) (x : A) :
  f x = false -> dropWhile f (l ++ x :: r)%list = (dropWhile f l ++ x :: r)%list.
Proof.
  intros H. induction l as [|y l IH]; simpl; [now rewrite H|].
  destruct (f y); [exact IH|reflexivity].
Qed.

Lemma takeWhile_stop {A} (f : A -> bool) (l r : list A) (x : A) :
  f x = false -> takeWhile f (l ++ x :: r)%list = takeWhile f l.
Proof.
  intros H. induction l as [|y l IH]; simpl; [now rewrite H|].
  destruct (f y); [now rewrite IH|reflexivity].
Qed.

Lemma takeWhile_snoc {A} (f : A -> bool) (l : list A) (x : A) :
  f x = true ->
  takeWhile f (l ++ [x])%list = if forallb f l then (l ++ [x])%list else takeWhile f l.
Proof.
  intros H. induction l as [|y l IH]; simpl; [now rewrite H|].
  destruct (f y); simpl; [|reflexivity]. rewrite IH. now destruct (forallb f l).
Qed.

Lemma stripped_query (cs qs : list ascii) :
  stripped (cs ++ "?"%char :: qs) = stripped cs.
Proof.
  unfold stripped. rewrite dropWhile_stop by reflexivity.
  now rewrite takeWhile_stop by reflexivity.
Qed.

Lemma stripped_trailing_slash (cs : list ascii) :
  stripped (cs ++ ["/"%char]) = stripped cs.
Proof.
  unfold stripped. rewrite dropWhile_snoc.
  destruct (forallb is_slash cs) eqn:A.
  - rewrite (dropWhile_all _ _ A). reflexivity.
  - rewrite takeWhile_snoc by reflexivity.
    destruct (forallb not_question (dropWhile is_slash cs)) eqn:Q; [|reflexivity].
    rewrite (takeWhile_all _ _ Q), rev_app_distr. reflexivity.
Qed.

(** X7. A further leading slash, a further trailing slash and any query
    string leave the resource of a path unchanged. *)
Theorem X7_slashes_and_query_ignored (p q : string) :
  mapPathToResource ("/" ++ p) = mapPathToResource p
  /\ mapPathToResource (p ++ "/") = mapPathToResource p
  /\ mapPathToResource (p ++ "?" ++ q) = mapPathToResource p.
Proof.
  split; [reflexivity|].
  rewrite !mapPathToResource_refines, !spec_mapResource_stripped, !chars_app.
  cbn [chars app]. now rewrite stripped_trailing_slash, stripped_query.
Qed.

End NormalisedPaths.

(** ** Scores, the comparator and the sorted candidate list *)

Section SortedCandidates.

Import PathMapper PermissionRepository PermissionService.

Lemma score_of_shaped (R P : string)
    (Hshape : segment_shaped P = true) (Hother : P <> "*") :
  calculateSpecificityScore R P
  = (Num (if R =? P then 1 else 0),
     Num (Z.of_nat (literal_segments P)),
     Num (- Z.of_nat (wildcard_segments P)))
  /\ score_gt (calculateSpecificityScore R P) (calculateSpecificityScore R "*") = true.
Proof.
  assert (E : calculateSpecificityScore R P
              = (Num (if R =? P then 1 else 0),
                 Num (Z.of_nat (literal_segments P)),
                 Num (- Z.of_nat (wildcard_segments P)))).
  { pose proof (specificity_of_shaped R P Hshape) as S.
    unfold calculateSpecificityScore in *.
    apply String.eqb_neq in Hother. rewrite Hother in *.
    unfold specificity in S. simpl in S. injection S as S.
    rewrite S, (stars_of_shaped P Hshape). reflexivity. }
  split; [exact E|]. rewrite E.
  change (calculateSpecificityScore R "*") with (Num 0, Num 0, NegInfinity).
  unfold score_gt. destruct (R =? P); simpl; [reflexivity|].
  destruct (literal_segments P); reflexivity.
Qed.

(** X8. For a pattern other than ["*"] whose segments are wildcard tokens
    or star-free text, the score is (1 if it is the resource itself, else 0;
    the number of literal segments; minus the number of wildcard segments),
    and it ranks above the score of ["*"]. *)
Theorem X8_score_of_shaped_pattern (R P : string)
    (Hshape : segment_shaped P = true) (Hother : P <> "*") :
  calculateSpecificityScore R P
  = (Num (if R =? P then 1 else 0),
     Num (Z.of_nat (literal_segments P)),
     Num (- Z.of_nat (wildcard_segments P)))
  /\ score_gt (calculateSpecificityScore R P) (calculateSpecificityScore R "*") = true.
Proof. now apply score_of_shaped. Qed.

Lemma by_score_same (s : SpecificityScore) :
  by_score (components s) (components s) = Zero.
Proof.
  destruct s as [[a0 a1] a2]. simpl.
  assert (R : forall x, strict_eq x x = true) by (intro; now apply strict_eq_iff).
  now rewrite !R.
Qed.

Lemma by_score_negative (s t : SpecificityScore) :
  by_score (components s) (components t) = Negative <-> score_gt s t = true.
Proof.
  split; [|apply score_gt_by_score].
  destruct (score_gt_trichotomy s t) as [H|[->|H]]; [auto| |].
  - rewrite by_score_same. discriminate.
  - apply by_score_positive in H. rewrite H. discriminate.
Qed.

Lemma by_score_zero (s t : SpecificityScore) :
  by_score (components s) (components t) = Zero <-> s = t.
Proof.
  split; [|intros ->; apply by_score_same].
  destruct (score_gt_trichotomy s t) as [H|[->|H]]; [|auto|].
  - apply by_score_negative in H. rewrite H. discriminate.
  - apply by_score_positive in H. rewrite H. discriminate.
Qed.

(** X9. The comparator handed to [sort] is consistent: swapping its
    arguments swaps the sign, it returns zero exactly for records of the
    same effect and score, and "not after" is transitive. *)
Theorem X9_comparator_is_consistent (x y z : MatchedPermissionWithScore) :
  (compareFn x y = Negative <-> compareFn y x = Positive)
  /\ (compareFn x y = Zero <-> effect x = effect y /\ score x = score y)
  /\ (compareFn x y <> Positive -> compareFn y z <> Positive -> compareFn x z <> Positive).
Proof.
  split; [|split].
  - unfold compareFn. destruct (effect x), (effect y); simpl;
      rewrite ?by_score_negative, ?by_score_positive; split; congruence.
  - unfold compareFn. destruct (effect x), (effect y); simpl;
      rewrite ?by_score_zero; split; try tauto; try discriminate;
      intros [H _]; discriminate.
  - intros H K E. apply compareFn_positive in E.
    assert (Hxy : may_precede x y = true).
    { destruct (may_precede x y) eqn:M; [reflexivity|].
      apply compareFn_positive in M. contradiction. }
    assert (Hyz : may_precede y z = true).
    { destruct (may_precede y z) eqn:M; [reflexivity|].
      apply compareFn_positive in M. contradiction. }
    rewrite (may_precede_trans _ _ _ Hxy Hyz) in E. discriminate.
Qed.

Lemma insert_permutation {A} (cmp : A -> A -> sign) (x : A) (l : list A) :
  Permutation (x :: l) (insert cmp x l).
Proof.
  induction l as [|y l IH]; simpl; [reflexivity|].
  destruct (cmp x y); try reflexivity.
  rewrite perm_swap. now constructor.
Qed.

Lemma sort_permutation {A} (cmp : A -> A -> sign) (l : list A) :
  Permutation l (sort cmp l).
Proof.
  induction l as [|x l IH]; simpl; [constructor|].
  rewrite <- insert_permutation. now constructor.
Qed.

(** X10. When the store returns rows, the repository returns exactly those
    rows, each with the score of its pattern for the resource, rearranged
    into the prescribed order: denies before allows, higher scores first
    within an effect. *)
Theorem X10_repository_sorts_the_rows
    (db : Store) (u : string) (a : PermissionAction) (R : string)
    (results : list MatchedPermission)
    (Hrows : db u a (generateResourcePatterns R) = Ok results) :
  exists ps,
    findPermissionsWithWildcards db u a R = Ok ps
    /\ Permutation (map (with_score R) results) ps
    /\ prescribed_order ps = true
    /\ List.length ps = List.length results.
Proof.
  exists (sort compareFn (map (with_score R) results)).
  unfold findPermissionsWithWildcards. rewrite Hrows. simpl.
  split; [reflexivity|]. split; [apply sort_permutation|].
  split; [apply sort_prescribed_order|].
  rewrite <- (Permutation_length (sort_permutation compareFn _)). apply length_map.
Qed.

Lemma resolve_shape
    (ps : list MatchedPermissionWithScore) (a : PermissionAction) (r : string) :
  exists res,
    resolvePermissions ps a r = Ok res
    /\ match matchedPermissions res with
       | [] => ps = [] /\ allowed res = false
       | [p] => In p ps /\ allowed res = effect_eqb (effect p) allow
       | _ => False
       end.
Proof.
  destruct ps as [|top rest]; [eexists; split; [reflexivity|simpl; auto]|].
  unfold resolvePermissions.
  destruct (existsb _ _) eqn:E.
  - destruct (existsb_find _ _ E) as [d Hd]. rewrite Hd.
    eexists; split; [reflexivity|]. cbn [matchedPermissions allowed].
    apply find_some in Hd as [Hin Hdeny]. apply filter_In in Hin as [Hin _].
    apply is_deny_iff in Hdeny. rewrite Hdeny. auto.
  - eexists; split; [reflexivity|]. cbn [matchedPermissions allowed].
    split; [now left|reflexivity].
Qed.

(** X11. [resolvePermissions] always returns: the assertion on the result
    of [find] never fails.  The result carries no permission exactly when
    the list is empty, and otherwise carries one record of the list, whose
    effect is the decision. *)
Theorem X11_resolution_returns_one_candidate
    (ps : list MatchedPermissionWithScore) (a : PermissionAction) (r : string) :
  exists res,
    resolvePermissions ps a r = Ok res
    /\ match matchedPermissions res with
       | [] => ps = [] /\ allowed res = false
       | [p] => In p ps /\ allowed res = effect_eqb (effect p) allow
       | _ => False
       end.
Proof. apply resolve_shape. Qed.

Lemma checkPermission_shape
    (db : Store) (u : string) (a : PermissionAction) (R : string) :
  match matchedPermissions (checkPermission db u a R) with
  | [] => allowed (checkPermission db u a R) = false
  | [p] => allowed (checkPermission db u a R) = effect_eqb (effect p) allow
  | _ => False
  end.
Proof.
  unfold checkPermission.
  destruct (findPermissionsWithWildcards db u a R) as [ps|message]; [|reflexivity].
  cbn [bind]. destruct (List.length ps =? 0)%nat; [reflexivity|].
  destruct (resolve_shape ps a R) as (res & -> & H). cbn [try_catch].
  destruct (matchedPermissions res) as [|p [|q l]]; tauto.
Qed.

Lemma resolve_in_prescribed_order
    (ps : list MatchedPermissionWithScore) (a : PermissionAction) (r : string) :
  prescribed_order ps = true ->
  exists res,
    resolvePermissions ps a r = Ok res
    /\ (allowed res = true <-> ps <> [] /\ Forall (fun p => effect p = allow) ps).
Proof.
  intros Hord. destruct ps as [|top rest].
  - eexists; split; [reflexivity|]. simpl. split; [discriminate|intros [H _]; congruence].
  - cbn [prescribed_order] in Hord. apply andb_true_iff in Hord as [Htop _].
    rewrite forallb_forall in Htop.
    unfold resolvePermissions. fold (tiedGroup top (top :: rest)).
    destruct (effect top) eqn:Et.
    + assert (All : Forall (fun p => effect p = allow) (top :: rest)).
      { constructor; [exact Et|]. apply Forall_forall. intros y Hy.
        specialize (Htop y Hy). unfold may_precede in Htop. rewrite Et in Htop.
        destruct (effect y); [reflexivity|discriminate]. }
      assert (E : existsb is_deny (tiedGroup top (top :: rest)) = false).
      { apply not_true_is_false. intros H. apply existsb_exists in H as (p & Hp & Hd).
        apply filter_In in Hp as [Hp _]. apply is_deny_iff in Hd.
        rewrite Forall_forall in All. rewrite (All p Hp) in Hd. discriminate. }
      rewrite E. eexists; split; [reflexivity|]. simpl.
      split; [intros _; split; [discriminate|exact All]|reflexivity].
    + assert (E : existsb is_deny (tiedGroup top (top :: rest)) = true).
      { apply tied_deny_found. exists top. simpl. auto. }
      rewrite E. destruct (existsb_find _ _ E) as [d ->].
      eexists; split; [reflexivity|]. simpl.
      split; [discriminate|]. intros [_ All]. inversion All; congruence.
Qed.

Lemma checkPermission_allowed_iff
    (db : Store) (u : string) (a : PermissionAction) (R : string) :
  allowed (checkPermission db u a R) = true
  <-> exists results,
        db u a (generateResourcePatterns R) = Ok results
        /\ results <> []
        /\ Forall (fun row => mp_effect row = allow) results.
Proof.
  unfold checkPermission, findPermissionsWithWildcards.
  destruct (db u a (generateResourcePatterns R)) as [results|message] eqn:D.
  2:{ simpl. split; [discriminate|]. intros (rs & E & _). discriminate. }
  cbn [bind try_catch].
  set (ps := sort compareFn (map (with_score R) results)).
  assert (P : Permutation (map (with_score R) results) ps) by apply sort_permutation.
  assert (Hall : Forall (fun p => effect p = allow) ps
                 <-> Forall (fun row => mp_effect row = allow) results).
  { rewrite !Forall_forall. split.
    - intros H row Hr. apply (H (with_score R row)).
      apply (Permutation_in _ P). now apply in_map.
    - intros H p Hp. apply (Permutation_in _ (Permutation_sym P)) in Hp.
      apply in_map_iff in Hp as (row & <- & Hr). now apply H. }
  destruct (resolve_in_prescribed_order ps a R (sort_prescribed_order _))
    as (res & Eres & Hres).
  destruct ps as [|top rest] eqn:Eps.
  - apply Permutation_sym, Permutation_nil in P.
    apply map_eq_nil in P. subst results. simpl.
    split; [discriminate|]. intros (rs & [= <-] & N & _). congruence.
  - cbn [List.length Nat.eqb]. rewrite Eres. cbn [try_catch]. rewrite Hres, Hall.
    split.
    + intros [_ All]. exists results. repeat split; auto.
      intros ->. apply Permutation_nil in P. discriminate.
    + intros (rs & [= <-] & N & All). split; [discriminate|exact All].
Qed.

(** X12. [checkPermission] allows exactly when the store returns at least
    one row and every returned row is an allow: a single deny among the
    candidates, however unspecific, denies, as does an empty result or a
    failure of the store. *)
Theorem X12_allowed_iff_only_allow_rows
    (db : Store) (u : string) (a : PermissionAction) (R : string) :
  allowed (checkPermission db u a R) = true
  <-> exists results,
        db u a (generateResourcePatterns R) = Ok results
        /\ results <> []
        /\ Forall (fun row => mp_effect row = allow) results.
Proof. apply checkPermission_allowed_iff. Qed.

Lemma resolve_matched_in
    (ps : list MatchedPermissionWithScore) (a : PermissionAction) (r : string)
    (res : PermissionCheckResult) (p : MatchedPermissionWithScore) :
  resolvePermissions ps a r = Ok res -> In p (matchedPermissions res) -> In p ps.
Proof.
  destruct ps as [|top rest]; [intros [= <-] []|].
  unfold resolvePermissions. destruct (existsb _ _) eqn:E.
  - destruct (find _ _) as [d|] eqn:Hd; [|discriminate].
    intros [= <-] [<-|[]]. apply find_some in Hd as [Hin _].
    now apply filter_In in Hin as [Hin _].
  - intros [= <-] [<-|[]]. now left.
Qed.

Lemma action_eqb_eq (a b : PermissionAction) : action_eqb a b = true <-> a = b.
Proof. destruct a, b; simpl; split; congruence. Qed.

Lemma checkPermission_matched_from_table
    (table : list UserPermission) (u : string) (a : PermissionAction) (R : string)
    (p : MatchedPermissionWithScore) :
  In p (matchedPermissions (checkPermission (table_store table) u a R)) ->
  exists row,
    In row table
    /\ user_id row = u /\ up_action row = a
    /\ In (up_resource row) (generateResourcePatterns R)
    /\ p = with_score R (select_columns row).
Proof.
  unfold checkPermission, findPermissionsWithWildcards, table_store.
  cbn [bind try_catch].
  set (results := sort order_by _).
  set (ps := sort compareFn (map (with_score R) results)).
  destruct (List.length ps =? 0)%nat; [intros []|].
  destruct (resolvePermissions ps a R) as [res|message] eqn:Eres; [|intros []].
  cbn [try_catch]. intros Hp.
  pose proof (resolve_matched_in _ _ _ _ _ Eres Hp) as Hin.
  apply (Permutation_in _ (Permutation_sym (sort_permutation compareFn _))) in Hin.
  apply in_map_iff in Hin as (mp & <- & Hmp).
  apply (Permutation_in _ (Permutation_sym (sort_permutation order_by _))) in Hmp.
  apply in_map_iff in Hmp as (row & <- & Hrow).
  apply filter_In in Hrow as [Hrow W].
  unfold where_clause in W. apply andb_true_iff in W as [W Hhas].
  apply andb_true_iff in W as [Hu Ha].
  exists row. repeat split; auto.
  - now apply String.eqb_eq.
  - now apply action_eqb_eq.
  - now apply has_In.
Qed.

(** X13. Over a table, the permission that [checkPermission] reports comes
    from a row of the requesting user, for the requested action, whose
    pattern is one of the patterns generated for the resource; it carries
    that row's effect and the score of its pattern. *)
Theorem X13_matched_permission_is_the_users
    (table : list UserPermission) (u : string) (a : PermissionAction) (R : string)
    (p : MatchedPermissionWithScore)
    (Hmatched : In p (matchedPermissions (checkPermission (table_store table) u a R))) :
  exists row,
    In row table
    /\ user_id row = u /\ up_action row = a
    /\ In (up_resource row) (generateResourcePatterns R)
    /\ action p = a /\ resource p = up_resource row /\ effect p = up_effect row
    /\ score p = calculateSpecificityScore R (up_resource row).
Proof.
  destruct (checkPermission_matched_from_table _ _ _ _ _ Hmatched)
    as (row & Hrow & Hu & Ha & Hin & ->).
  exists row. simpl. repeat split; auto.
Qed.

End SortedCandidates.

(** X13 at the table of the two wallet rows. *)
Lemma X13_matched_permission_is_the_users_witness :
  exists row,
    In row wallet_rows /\ user_id row = "u1" /\ up_effect row = deny.
Proof.
  destruct (X13_matched_permission_is_the_users wallet_rows "u1" write
              "wallets/wallet-123" (scored wallets_deny) (or_introl eq_refl))
    as (row & H1 & H2 & _ & _ & _ & _ & H3 & _).
  exists row. repeat split; auto.
Defined.

(** X8 at the parent pattern of a wallet. *)
Lemma X8_score_of_shaped_pattern_witness :
  score_gt (PathMapper.calculateSpecificityScore "wallets/w1" "wallets/*")
           (PathMapper.calculateSpecificityScore "wallets/w1" "*") = true.
Proof.
  apply (X8_score_of_shaped_pattern "wallets/w1" "wallets/*");
    [reflexivity|discriminate].
Defined.

(** X10 at the table of the two wallet rows. *)
Lemma X10_repository_sorts_the_rows_witness :
  exists ps,
    PermissionRepository.findPermissionsWithWildcards
      (PermissionRepository.table_store wallet_rows) "u1" write "wallets/wallet-123" = Ok ps
    /\ prescribed_order ps = true.
Proof.
  destruct (X10_repository_sorts_the_rows
              (PermissionRepository.table_store wallet_rows) "u1" write
              "wallets/wallet-123" [wallets_deny; wallet_123_allow] eq_refl)
    as (ps & E & _ & O & _).
  exists ps. split; assumption.
Defined.


(** ** The authorization service *)

Section AuthorizeProperties.

Import PermissionService AuthorizationService.

Variable validateToken : string -> ValidationResult.
Variable toUpperCase : string -> string.
Variable db : Store.

Local Abbreviation authorize_ := (authorize validateToken toUpperCase db).
Local Abbreviation mapAction := (PathMapper.mapHttpMethodToAction toUpperCase).

Lemma authorize_resolved request uid act :
  resolved validateToken toUpperCase request uid act ->
  authorize_ request
  = let permissionResult :=
      checkPermission db uid act (PathMapper.mapPathToResource (path request)) in
    {| decision := if allowed permissionResult then ALLOW else DENY;
       resp_user_id := uid;
       resp_reason := reason permissionResult;
       matched_permissions := map strip_score (matchedPermissions permissionResult) |}.
Proof.
  intros (Hv & Hp & (info & Hi & Hn) & Hu & Ha). unfold authorize.
  rewrite Hv. destruct (payload _); [|congruence]. cbn [negb orb].
  rewrite Hi. cbn [bind]. rewrite Hn.
  apply String.eqb_neq in Hu. rewrite Hu, Ha. reflexivity.
Qed.

Lemma authorize_unresolved request :
  (forall uid act, ~ resolved validateToken toUpperCase request uid act) ->
  exists why, authorize_ request = unknown_user why.
Proof.
  intros N. unfold authorize, resolved in *.
  destruct (valid _) eqn:Hv; [|eexists; reflexivity].
  destruct (payload _) eqn:Hp; [|eexists; reflexivity]. cbn [negb orb].
  destruct (userInfo _) as [info|] eqn:Hi; [|eexists; reflexivity]. cbn [bind].
  destruct (nickname info) as [uid|] eqn:Hn; [|eexists; reflexivity].
  destruct (String.eqb_spec uid "") as [->|Hu]; [eexists; reflexivity|].
  destruct (mapAction (method request)) as [act|m] eqn:Ha; [|eexists; reflexivity].
  exfalso. apply (N uid act). repeat split; auto; [congruence|eauto].
Qed.

Lemma resolved_or_not request :
  (exists uid act, resolved validateToken toUpperCase request uid act) \/ (forall uid act, ~ resolved validateToken toUpperCase request uid act).
Proof.
  unfold resolved.
  destruct (valid _) eqn:Hv; [|right; intros ? ? (H & _); discriminate].
  destruct (payload _) eqn:Hp; [|right; intros ? ? (_ & H & _); congruence].
  destruct (userInfo _) as [info|] eqn:Hi;
    [|right; intros ? ? (_ & _ & (i & H & _) & _); discriminate].
  destruct (nickname info) as [uid|] eqn:Hn;
    [|right; intros ? ? (_ & _ & (i & [= <-] & H) & _); congruence].
  destruct (String.eqb_spec uid "") as [->|Hu];
    [right; intros ? ? (_ & _ & (i & [= <-] & H) & H' & _); congruence|].
  destruct (mapAction (method request)) as [act|m] eqn:Ha.
  - left. exists uid, act. repeat split; auto; [congruence|eauto].
  - right. intros ? ? (_ & _ & _ & _ & H). discriminate.
Qed.

Lemma resolved_unique request uid act uid' act' :
  resolved validateToken toUpperCase request uid act -> resolved validateToken toUpperCase request uid' act' -> uid = uid' /\ act = act'.
Proof.
  intros (_ & _ & (i & Hi & Hn) & _ & Ha) (_ & _ & (i' & Hi' & Hn') & _ & Ha').
  split; congruence.
Qed.

Lemma authorize_allow_iff request :
  decision (authorize_ request) = ALLOW
  <-> exists uid act,
        resolved validateToken toUpperCase request uid act
        /\ allowed (checkPermission db uid act
                      (PathMapper.mapPathToResource (path request))) = true.
Proof.
  destruct (resolved_or_not request) as [(uid & act & Hr)|N].
  - rewrite (authorize_resolved _ _ _ Hr). cbn [decision]. split.
    + intros H. exists uid, act. split; [exact Hr|]. now destruct (allowed _).
    + intros (uid' & act' & Hr' & Hal).
      destruct (resolved_unique _ _ _ _ _ Hr Hr') as [<- <-]. now rewrite Hal.
  - destruct (authorize_unresolved _ N) as (why & ->). split; [discriminate|].
    intros (uid & act & Hr & _). exfalso. exact (N _ _ Hr).
Qed.

(** X14. [authorize] answers ALLOW exactly when the token is valid with a
    payload, the user information holds a non-empty nickname, the method
    maps to an action, and [checkPermission] allows that user the action
    on the normalised path; the response then names that user. *)
Theorem X14_allow_requires_every_step (request : AuthorizeRequest) :
  (decision (authorize validateToken toUpperCase db request) = ALLOW
   <-> exists uid act,
         resolved validateToken toUpperCase request uid act
         /\ allowed (checkPermission db uid act
                       (PathMapper.mapPathToResource (path request))) = true)
  /\ (forall uid act,
        resolved validateToken toUpperCase request uid act ->
        resp_user_id (authorize validateToken toUpperCase db request) = uid).
Proof.
  split; [apply authorize_allow_iff|].
  intros uid act Hr. now rewrite (authorize_resolved _ _ _ Hr).
Qed.

(** X15. A method that [mapHttpMethodToAction] rejects is answered, also
    for a valid token of a user with a non-empty nickname, by the fallback of
    [authorize]: DENY for user "unknown" with the reason
    "Authorization check failed due to system error" (with an empty nickname
    the reason is "User not found"); the store is not consulted. *)
Theorem X15_unsupported_method_is_system_error
    (request : AuthorizeRequest) (info : UserInfo) (uid message : string)
    (Hvalid : valid (validateToken (access_token request)) = true)
    (Hpayload : payload (validateToken (access_token request)) <> None)
    (Hinfo : userInfo (validateToken (access_token request)) = Some info)
    (Hnick : nickname info = Some uid)
    (Hmethod : PathMapper.mapHttpMethodToAction toUpperCase (method request)
               = Throw message) :
  forall db' : Store,
    authorize validateToken toUpperCase db' request
    = {| decision := DENY;
         resp_user_id := "unknown";
         resp_reason := if uid =? "" then "User not found"
                        else "Authorization check failed due to system error";
         matched_permissions := [] |}.
Proof.
  intros db'. unfold authorize. rewrite Hvalid.
  destruct (payload _); [|congruence]. cbn [negb orb].
  rewrite Hinfo. cbn [bind]. rewrite Hnick.
  destruct (uid =? ""); [reflexivity|]. rewrite Hmethod. reflexivity.
Qed.

(** X16. Every response of [authorize] carries at most one matched
    permission, and when it carries one its effect is the decision: an
    allow for ALLOW, a deny for DENY.  The user is "unknown" or the
    nickname of the token's user information. *)
Theorem X16_response_is_coherent (request : AuthorizeRequest) :
  match matched_permissions (authorize validateToken toUpperCase db request) with
  | [] => decision (authorize validateToken toUpperCase db request) = DENY
  | [m] => decision (authorize validateToken toUpperCase db request)
           = match mp_effect m with allow => ALLOW | deny => DENY end
  | _ => False
  end
  /\ (resp_user_id (authorize validateToken toUpperCase db request) = "unknown"
      \/ exists info,
           userInfo (validateToken (access_token request)) = Some info
           /\ nickname info = Some (resp_user_id (authorize validateToken toUpperCase db request))).
Proof.
  destruct (resolved_or_not request) as [(uid & act & Hr)|N].
  - rewrite (authorize_resolved _ _ _ Hr). cbv zeta.
    cbn [matched_permissions decision resp_user_id].
    pose proof (checkPermission_shape db uid act
                  (PathMapper.mapPathToResource (path request))) as S.
    split.
    + destruct (matchedPermissions _) as [|p [|q l]]; cbn [map]; [| |exact S].
      * now rewrite S.
      * rewrite S. unfold strip_score. cbn [mp_effect]. now destruct (effect p).
    + right. destruct Hr as (_ & _ & H & _). exact H.
  - destruct (authorize_unresolved _ N) as (why & ->). simpl. auto.
Qed.

End AuthorizeProperties.

(** X15 at a [TRACE] request of a known user. *)
Lemma X15_unsupported_method_is_system_error_witness :
  AuthorizationService.authorize (token_of "u1") ascii_toUpperCase
    (PermissionRepository.table_store wallet_rows)
    {| access_token := "t"; method := "TRACE"; path := "/wallets" |}
  = {| decision := DENY;
       resp_user_id := "unknown";
       resp_reason := "Authorization check failed due to system error";
       matched_permissions := [] |}.
Proof.
  apply (X15_unsupported_method_is_system_error (token_of "u1") ascii_toUpperCase
           {| access_token := "t"; method := "TRACE"; path := "/wallets" |}
           {| nickname := Some "u1" |} "u1" "Unsupported HTTP method: TRACE");
    try reflexivity.
  discriminate.
Defined.

(** ** The controller *)

Section Controller.

Import AuthorizationService.

(** Whatever the authorization service does, the controller answers 200
    exactly when the body it sends says ALLOW, 500 exactly when the service
    threw, and 403 otherwise; the body of a 500 is a DENY for user
    "unknown". *)
Lemma controller_status_cases
    (service : AuthorizeRequest -> result AuthorizeResponse)
    (request : AuthorizeRequest) :
  (status (AuthController.authorize service request) = 200%Z
   <-> decision (body (AuthController.authorize service request)) = ALLOW)
  /\ (status (AuthController.authorize service request) = 500%Z
      <-> exists message, service request = Throw message)
  /\ (status (AuthController.authorize service request) = 403%Z
      <-> exists response, service request = Ok response /\ decision response = DENY)
  /\ (status (AuthController.authorize service request) = 500%Z ->
      resp_user_id (body (AuthController.authorize service request)) = "unknown").
Proof.
  unfold AuthController.authorize.
  destruct (service request) as [response|message]; cbn [bind try_catch].
  - destruct (decision response) eqn:D; cbn [status body]; rewrite ?D;
      repeat split; try discriminate; try congruence; eauto;
      try (intros (m & H); discriminate);
      intros (r & [= <-] & H); congruence.
  - cbn [status body decision resp_user_id].
    repeat split; try discriminate; eauto.
    intros (r & H & _). discriminate.
Qed.

(** X17. With [AuthorizationService.authorize] as its service the
    controller never answers 500; it answers 200 exactly when the request
    resolves to a user and an action for which the store returns at least
    one row, all of them allows, and 403 in every other case. *)
Theorem X17_http_200_iff_only_allow_rows
    (validateToken : string -> ValidationResult) (toUpperCase : string -> string)
    (db : Store) (request : AuthorizeRequest) :
  let answer :=
    AuthController.authorize
      (fun rq => Ok (authorize validateToken toUpperCase db rq)) request in
  (status answer = 200%Z
   <-> exists uid act results,
         resolved validateToken toUpperCase request uid act
         /\ db uid act (PathMapper.generateResourcePatterns
                          (PathMapper.mapPathToResource (path request))) = Ok results
         /\ results <> []
         /\ Forall (fun row => mp_effect row = allow) results)
  /\ (status answer = 200%Z \/ status answer = 403%Z).
Proof.
  intros answer. subst answer. unfold AuthController.authorize. cbn [bind try_catch].
  split.
  - transitivity (decision (authorize validateToken toUpperCase db request) = ALLOW).
    + destruct (decision _); cbn [status]; split; congruence.
    + rewrite authorize_allow_iff. split.
      * intros (uid & act & Hr & Hal).
        apply checkPermission_allowed_iff in Hal as (results & H).
        exists uid, act, results. tauto.
      * intros (uid & act & results & Hr & H). exists uid, act. split; [exact Hr|].
        apply checkPermission_allowed_iff. exists results. exact H.
  - destruct (decision _); cbn [status]; auto.
Qed.

End Controller.

(** ** The token service *)

Section Tokens.

Import TokenService AuthorizationService.

Variable stripBearer : string -> string.
Variable jwtVerify : string -> result unit.
Variable getUserInfo : string -> result (option UserInfo).

Local Abbreviation validate := (validateToken stripBearer jwtVerify getUserInfo).

Lemma validateToken_cases (token : string) :
  let clean := stripBearer token in
  (List.length (split "." clean) <> 3 /\ validate token = invalid "Invalid token format")
  \/ (List.length (split "." clean) = 3
      /\ ((exists e, jwtVerify clean = Throw e
                     /\ validate token = invalid ("Auth0 token validation failed: " ++ e))
          \/ (exists pl e, jwtVerify clean = Ok pl /\ getUserInfo clean = Throw e
                 /\ validate token = invalid ("Auth0 token validation failed: " ++ e))
          \/ (exists pl, jwtVerify clean = Ok pl /\ getUserInfo clean = Ok None
                 /\ validate token = invalid "User ID not found in Auth0 token")
          \/ (exists pl info, jwtVerify clean = Ok pl /\ getUserInfo clean = Ok (Some info)
                 /\ validate token
                    = {| valid := true; payload := Some pl;
                         userInfo := Some info; error := None |}))).
Proof.
  intros clean. unfold validateToken. fold clean. cbn [try_catch].
  destruct (Nat.eqb_spec (List.length (split "." clean)) 3) as [E|N];
    [right; split; [exact E|]|left; split; [exact N|reflexivity]].
  cbn [negb]. destruct (jwtVerify clean) as [pl|e]; [|left; eauto].
  right. cbn [bind]. destruct (getUserInfo clean) as [[info|]|e].
  - right; right. exists pl, info. auto.
  - right; left. exists pl. auto.
  - left. exists pl, e. auto.
Qed.

(** X18. [validateToken] accepts a token exactly when, with the [Bearer]
    prefix stripped, it has three dot-separated parts, [jwtVerify] returns
    and the user-info endpoint returns data; the result then carries the
    payload and that user information and no error.  Every other result is
    invalid and carries an error; in particular a token without three
    parts is rejected whatever the verifier would say. *)
Theorem X18_token_accepted_iff_verified (token : string) :
  (valid (validateToken stripBearer jwtVerify getUserInfo token) = true
   <-> List.length (split "." (stripBearer token)) = 3
       /\ exists pl info,
            jwtVerify (stripBearer token) = Ok pl
            /\ getUserInfo (stripBearer token) = Ok (Some info)
            /\ validateToken stripBearer jwtVerify getUserInfo token
               = {| valid := true; payload := Some pl;
                    userInfo := Some info; error := None |})
  /\ (valid (validateToken stripBearer jwtVerify getUserInfo token) = false ->
      exists why, validateToken stripBearer jwtVerify getUserInfo token = invalid why)
  /\ (List.length (split "." (stripBearer token)) <> 3 ->
      validateToken stripBearer jwtVerify getUserInfo token
      = invalid "Invalid token format").
Proof.
  destruct (validateToken_cases token)
    as [[N E]|[L [(e & J & E)|[(pl & e & J & U & E)|[(pl & J & U & E)|(pl & info & J & U & E)]]]]];
    rewrite E; cbn [valid invalid].
  - split; [split; [discriminate|intros (L & _); contradiction]|].
    split; [intros _; eexists; reflexivity|reflexivity].
  - split; [split; [discriminate|intros (_ & pl' & info' & J' & _); congruence]|].
    split; [intros _; eexists; reflexivity|contradiction].
  - split; [split; [discriminate|intros (_ & pl' & info' & _ & U' & _); congruence]|].
    split; [intros _; eexists; reflexivity|contradiction].
  - split; [split; [discriminate|intros (_ & pl' & info' & _ & U' & _); congruence]|].
    split; [intros _; eexists; reflexivity|contradiction].
  - split; [split; [intros _; split; [exact L|exists pl, info; auto]|reflexivity]|].
    split; [discriminate|contradiction].
Qed.


End Tokens.


(** X18 at a token that the verifier and the user-info endpoint accept. *)
Lemma X18_token_accepted_iff_verified_witness :
  valid (TokenService.validateToken (fun t => t) (fun _ => Ok tt)
           (fun _ => Ok (Some {| nickname := Some "u1" |})) "aa.bb.cc") = true.
Proof.
  apply (X18_token_accepted_iff_verified (fun t => t) (fun _ => Ok tt)
           (fun _ => Ok (Some {| nickname := Some "u1" |})) "aa.bb.cc").
  split; [reflexivity|]. exists tt, {| nickname := Some "u1" |}. repeat split.
Defined.

(** ** Configuration from the environment *)

Section Environment.

Import Config.

Lemma truthy_Some (s : option string) :
  truthy s = true <-> exists v, s = Some v /\ v <> "".
Proof.
  destruct s as [v|]; simpl.
  - rewrite negb_true_iff, String.eqb_neq. split; [eauto|]. now intros (w & [= <-] & H).
  - split; [discriminate|]. intros (w & H & _). discriminate.
Qed.

(** X20. [getEnvVar] returns the variable when it is set and not empty,
    else the default when that is given and not empty, and throws, naming
    the key, when neither is: it never returns the empty string or
    [undefined], so an empty default makes the variable required. *)
Theorem X20_getEnvVar_never_empty (env : Env) (key : string) (defaultValue : option string) :
  (exists v, getEnvVar env key defaultValue = Ok (Some v)
             /\ v <> ""
             /\ (env key = Some v
                 \/ (truthy (env key) = false /\ defaultValue = Some v)))
  \/ (getEnvVar env key defaultValue
      = Throw ("Missing required environment variable: " ++ key)
      /\ truthy (env key) = false
      /\ truthy defaultValue = false).
Proof.
  unfold getEnvVar, or_. cbv zeta.
  destruct (truthy (env key)) eqn:V.
  - left. apply truthy_Some in V as (v & E & N). exists v. rewrite E. auto.
  - destruct (truthy defaultValue) eqn:D.
    + left. apply truthy_Some in D as (v & E & N). exists v. rewrite E. auto.
    + right. auto.
Qed.

Variable parseInt10 : string -> option Z.

Lemma getEnvVar_with_default (env : Env) (key d : string) :
  d <> "" -> exists v, getEnvVar env key (Some d) = Ok (Some v) /\ v <> "".
Proof.
  intros N. unfold getEnvVar, or_. cbv zeta.
  assert (D : truthy (Some d) = true) by (apply truthy_Some; eauto).
  rewrite D, andb_false_r.
  destruct (truthy (env key)) eqn:V.
  - apply truthy_Some in V as (v & E & Nv). rewrite E. eauto.
  - eauto.
Qed.

Lemma getEnvVar_required (env : Env) (key : string) :
  (exists v, env key = Some v /\ v <> "" /\ getEnvVar env key (Some "") = Ok (Some v))
  \/ (truthy (env key) = false
      /\ getEnvVar env key (Some "")
         = Throw ("Missing required environment variable: " ++ key)).
Proof.
  unfold getEnvVar, or_. cbv zeta. change (truthy (Some "")) with false.
  destruct (truthy (env key)) eqn:V.
  - left. apply truthy_Some in V as (v & E & Nv). exists v. rewrite E. auto.
  - right. auto.
Qed.

(** X21. The configuration loads exactly when [AUTH0_DOMAIN] and
    [AUTH0_AUDIENCE] are both set and not empty, and then holds their
    values; otherwise loading throws and names the first of the two that
    is missing.  The other string settings fall back to their defaults. *)
Theorem X21_config_needs_auth0_settings (env : Env) :
  ((exists c, config parseInt10 env = Ok c)
   <-> truthy (env "AUTH0_DOMAIN") = true /\ truthy (env "AUTH0_AUDIENCE") = true)
  /\ (forall c, config parseInt10 env = Ok c ->
                auth0_domain c = env "AUTH0_DOMAIN"
                /\ auth0_audience c = env "AUTH0_AUDIENCE"
                /\ truthy (nodeEnv c) = true
                /\ truthy (logLevel c) = true
                /\ truthy (database_path c) = true)
  /\ (truthy (env "AUTH0_DOMAIN") = false ->
      config parseInt10 env
      = Throw "Missing required environment variable: AUTH0_DOMAIN")
  /\ (truthy (env "AUTH0_DOMAIN") = true -> truthy (env "AUTH0_AUDIENCE") = false ->
      config parseInt10 env
      = Throw "Missing required environment variable: AUTH0_AUDIENCE").
Proof.
  unfold config.
  destruct (getEnvVar_with_default env "NODE_ENV" "development") as (v1 & -> & N1);
    [discriminate|].
  destruct (getEnvVar_with_default env "LOG_LEVEL" "info") as (v2 & -> & N2);
    [discriminate|].
  destruct (getEnvVar_with_default env "DATABASE_PATH" "./data/permissions.db")
    as (v3 & -> & N3); [discriminate|].
  cbn [bind].
  assert (T : forall v, v <> "" -> truthy (Some v) = true)
    by (intros v Hv; apply truthy_Some; eauto).
  destruct (getEnvVar_required env "AUTH0_DOMAIN") as [(d & Ed & Nd & ->)|[Fd ->]];
    cbn [bind].
  - destruct (getEnvVar_required env "AUTH0_AUDIENCE") as [(a & Ea & Na & ->)|[Fa ->]];
      cbn [bind]; rewrite Ed, ?Ea, ?Fa, ?(T d Nd), ?(T a Na).
    + split; [split; [auto|intros _; eexists; reflexivity]|].
      split; [|split; [intros H; discriminate H|intros _ H; discriminate H]].
      intros c [= <-]. cbn [auth0_domain auth0_audience nodeEnv logLevel database_path].
      repeat split; auto.
    + split; [split; [intros (c & H); discriminate H|intros (_ & H); discriminate H]|].
      split; [intros c H; discriminate H|].
      split; [intros H; discriminate H|reflexivity].
  - rewrite Fd.
    split; [split; [intros (c & H); discriminate H|intros (H & _); discriminate H]|].
    split; [intros c H; discriminate H|].
    split; [reflexivity|intros H; discriminate H].
Qed.

End Environment.

(** ** Request validation *)

Section RequestValidation.

Import Validator.

Variable toUpperCase : string -> string.

(** X22. A body that [authorizeRequestSchema] accepts has a non-empty
    token, one of the five methods spelled in capitals and a path that
    starts with a slash; when upper-casing leaves those five names as they
    are, [mapHttpMethodToAction] returns an action for the validated
    method, so the unsupported-method error cannot occur behind the
    validator.  [validateRequest] answers 400 exactly for the bodies the
    schema rejects. *)
Theorem X22_validated_requests_are_supported
    (b : Body) (request : AuthorizeRequest)
    (Hfixed : forall m, In m ["GET"; "POST"; "PUT"; "PATCH"; "DELETE"] -> toUpperCase m = m)
    (Haccepted : authorizeRequestSchema b = Some request) :
  access_token request <> ""
  /\ In (method request) ["GET"; "POST"; "PUT"; "PATCH"; "DELETE"]
  /\ String.prefix "/" (path request) = true
  /\ (exists act, PathMapper.mapHttpMethodToAction toUpperCase (method request) = Ok act)
  /\ validateRequest authorizeRequestSchema b = Next request
  /\ (forall b', validateRequest authorizeRequestSchema b' = Respond 400
                 <-> authorizeRequestSchema b' = None).
Proof.
  assert (V : validateRequest authorizeRequestSchema b = Next request)
    by (unfold validateRequest; now rewrite Haccepted).
  unfold authorizeRequestSchema, string_min_1, method_enum, starts_with_slash in Haccepted.
  destruct (body_access_token b) as [t|]; [|discriminate].
  destruct (1 <=? String.length t)%nat eqn:Lt; [|discriminate].
  destruct (body_method b) as [m|]; [|discriminate].
  destruct (has _ m) eqn:Hm; [|discriminate].
  destruct (body_path b) as [p|]; [|discriminate].
  destruct (1 <=? String.length p)%nat; [|discriminate].
  destruct (String.prefix "/" p) eqn:Pp; [|discriminate].
  injection Haccepted as <-. cbn [access_token method path].
  apply has_In in Hm.
  split; [intros ->; discriminate Lt|]. split; [exact Hm|]. split; [exact Pp|].
  split; [|split; [exact V|]].
  - pose proof (mapAction_taken toUpperCase m) as T. rewrite (Hfixed m Hm) in T.
    inversion T; eauto. exfalso. simpl in Hm. intuition congruence.
  - intros b'. unfold validateRequest.
    destruct (authorizeRequestSchema b'); split; congruence.
Qed.

End RequestValidation.

(** X22 at a well-formed body. *)
Lemma X22_validated_requests_are_supported_witness :
  exists act,
    PathMapper.mapHttpMethodToAction ascii_toUpperCase "PATCH" = Ok act.
Proof.
  apply (X22_validated_requests_are_supported ascii_toUpperCase
           {| Validator.body_access_token := Some "t";
              Validator.body_method := Some "PATCH";
              Validator.body_path := Some "/wallets/w1" |}
           {| access_token := "t"; method := "PATCH"; path := "/wallets/w1" |}).
  - intros m [<-|[<-|[<-|[<-|[<-|[]]]]]]; reflexivity.
  - reflexivity.
Defined.

(** ** The seeded database *)

Section SeededDatabase.

Import Database PermissionRepository PermissionService.






End SeededDatabase.


(** ** Wildcards in the generated patterns *)

Section GeneratedWildcards.

Import PathMapper PermissionRepository PermissionService.

Lemma prefix_star (s : string) : String.prefix "*" (String "*" s) = true.
Proof. destruct s; reflexivity. Qed.

Lemma includes_star (s : string) : 1 <= count_char "*" s -> includes s "*" = true.
Proof.
  induction s as [|c s IH]; cbn [count_char includes]; [lia|].
  destruct (Ascii.eqb_spec c "*") as [->|N]; intros H.
  - now rewrite prefix_star.
  - rewrite IH by lia. apply orb_true_r.
Qed.

Lemma join_counts_member (c : ascii) (x : string) (l : list string) :
  In x l -> count_char c x <= count_char c (join "/" l).
Proof.
  induction l as [|a l IH]; [intros []|].
  destruct l as [|b r].
  - intros [<-|[]]. simpl. lia.
  - rewrite join_cons, !count_char_app. intros [<-|H]; [lia|].
    specialize (IH H). lia.
Qed.

Lemma mapi_from_star (l : list string) (k i j : nat) :
  k <= i < k + List.length l ->
  In "*" (mapi_from k (fun seg idx => if ((idx =? i) || (idx =? j))%nat then "*" else seg) l).
Proof.
  revert k. induction l as [|x l IH]; intros k H; simpl in *; [lia|].
  destruct (Nat.eqb_spec k i) as [->|N]; [now left|].
  right. apply IH. lia.
Qed.

Lemma mapi_from_one_star (l : list string) (k i : nat) :
  k <= i < k + List.length l ->
  In "*" (mapi_from k (fun seg idx => if (idx =? i)%nat then "*" else seg) l).
Proof.
  revert k. induction l as [|x l IH]; intros k H; simpl in *; [lia|].
  destruct (Nat.eqb_spec k i) as [->|N]; [now left|].
  right. apply IH. lia.
Qed.

Lemma shapes_hold_a_star (R P : string) :
  pathMapper_shape R P \/ part000_shape R P -> P <> R -> 1 <= count_char "*" P.
Proof.
  intros H N.
  assert (J : forall l, In "*" l -> 1 <= count_char "*" (join "/" l))
    by (intros l Hl; apply (join_counts_member "*" "*" l Hl)).
  unfold pathMapper_shape, part000_shape, segment_count in H.
  destruct H as [[->|[(i & Hi & ->)|[[L ->]|[(L & i & Hi & ->)|[(L & i & Hi & ->)| ->]]]]]
                |[->|[(i & Hi & ->)|[(L & i & Hi & ->)|[(L & i & j & Hi & Hj & ->)| ->]]]]];
    try contradiction; try (simpl; lia).
  - unfold parent_pattern. rewrite count_char_app. simpl. lia.
  - unfold ends_pattern. rewrite !count_char_app. simpl. lia.
  - apply J. apply mapi_from_one_star. lia.
  - apply J. rewrite !in_app_iff. simpl. tauto.
  - unfold parent_pattern. rewrite count_char_app. simpl. lia.
  - apply J. apply mapi_from_one_star. lia.
  - apply J. apply mapi_from_star. lia.
Qed.

(** X25. Every pattern that either generator produces, the resource itself
    apart, contains a star.  The permission that [checkPermission] reports
    over a table is therefore the resource itself or a wildcard pattern, so
    the reason builders never reach their last case, a pattern without a
    star that differs from the resource. *)
Theorem X25_generated_patterns_are_wildcards (R : string) :
  (forall P, In P (generateResourcePatterns R) \/ In P (Part000.generateResourcePatterns R) ->
             P <> R -> includes P "*" = true)
  /\ (forall table u a p,
        In p (matchedPermissions (checkPermission (table_store table) u a R)) ->
        (resource p =? R) = true
        \/ (resource p =? "*") = true
        \/ includes (resource p) "*" = true).
Proof.
  assert (G : forall P, In P (generateResourcePatterns R)
                        \/ In P (Part000.generateResourcePatterns R) ->
                        P <> R -> includes P "*" = true).
  { intros P HP N. apply includes_star. apply (shapes_hold_a_star R P); [|exact N].
    destruct HP as [HP|HP]; [left; now apply PathMapper_patterns_iff
                            |right; now apply Part000_patterns_iff]. }
  split; [exact G|].
  intros table u a p Hp.
  destruct (checkPermission_matched_from_table _ _ _ _ _ Hp)
    as (row & _ & _ & _ & Hin & ->).
  cbn [resource with_score select_columns mp_resource].
  destruct (String.eqb_spec (up_resource row) R) as [E|N]; [now left|right; right].
  apply G; auto.
Qed.

End GeneratedWildcards.

(** X25 at the parent pattern of a wallet. *)
Lemma X25_generated_patterns_are_wildcards_witness :
  includes "wallets/*" "*" = true.
Proof.
  apply (X25_generated_patterns_are_wildcards "wallets/w1" ).
  - left. simpl. auto.
  - discriminate.
Defined.

(** ** Scores along the hierarchy *)

Section Hierarchy.

Import PathMapper.









End Hierarchy.

